(** * FIFO-Buffer: a byte ring buffer and a framed UART message layer

    Shallow embedding of [src/fifo_buffer.c] and [src/uart_message_fifo.c].

    Conventions.
    - [uint8_t] and [uint16_t] values are integers of [Z]; every conversion
      to one of these types is written out ([to_u8], [to_u16]).
    - The pointer [fifo->buffer] (and the caller's [message] array) is
      modelled by the bytes of the storage it designates, a [list Z] indexed
      from [0]; [NULL] designates no byte at all.
    - A call returns [option]: [None] means that the C program has no defined
      result there (a remainder by zero, an access outside the storage), or
      that the bound given to a loop of the model was too small.
    - A C function [bool f(..., T *out)] that writes [*out] exactly when it
      returns [true] is modelled with a result of type [option T]:
      [Some v] is "returned [true] and wrote [v]", [None] is "returned
      [false] and left [*out] alone".
    - The sources target AVR ([SREG], [cli()]), where [int] is 16 bits wide,
      so that [uint16_t] operands are computed on as [unsigned int], modulo
      [2^16].  On a target whose [int] is wider, the same operands are
      promoted to [int] and computed on exactly.  The Boolean [wide_int]
      selects between the two; every theorem below holds for both. *)

From Stdlib Require Import ZArith Lia Bool.
From stdpp Require Import base option list.

Local Open Scope Z_scope.

(** ** Machine integers *)

Definition to_u8 (z : Z) : Z := z mod 256.
Definition to_u16 (z : Z) : Z := z mod 65536.

Definition is_u8 (z : Z) : Prop := 0 <= z < 256.

(** Value of an arithmetic expression over [uint16_t] operands, in the type
    the operands are converted to. *)
Definition promoted (wide_int : bool) (z : Z) : Z :=
  if wide_int then z else z mod 65536.

(** [a % b] on non-negative operands; undefined when [b] is [0]. *)
Definition c_mod (a b : Z) : option Z :=
  if b =? 0 then None else Some (a mod b).

(** ** Arrays *)

(** [a[i]] as an rvalue. *)
Definition load (a : list Z) (i : Z) : option Z :=
  if i <? 0 then None else a !! Z.to_nat i.

(** [a[i] = v]. *)
Definition store (a : list Z) (i : Z) (v : Z) : option (list Z) :=
  if (0 <=? i) && (i <? Z.of_nat (length a))
  then Some (<[Z.to_nat i := v]> a)
  else None.

(** ** fifo_buffer.h *)

Record FIFO_Buffer : Type := mkFIFO {
  buffer : list Z;          (* uint8_t *buffer: the circular storage *)
  size : Z;                 (* uint16_t *)
  head : Z;                 (* uint16_t, write index *)
  tail : Z;                 (* uint16_t, read index *)
  count : Z;                (* uint16_t, number of stored elements *)
  high_watermark : Z;       (* uint16_t *)
  low_watermark : Z;        (* uint16_t *)
  overwrite_enabled : bool
}.

Definition set_buffer (fifo : FIFO_Buffer) (b : list Z) : FIFO_Buffer :=
  mkFIFO b (size fifo) (head fifo) (tail fifo) (count fifo)
         (high_watermark fifo) (low_watermark fifo) (overwrite_enabled fifo).

Definition set_head (fifo : FIFO_Buffer) (h : Z) : FIFO_Buffer :=
  mkFIFO (buffer fifo) (size fifo) h (tail fifo) (count fifo)
         (high_watermark fifo) (low_watermark fifo) (overwrite_enabled fifo).

Definition set_tail (fifo : FIFO_Buffer) (t : Z) : FIFO_Buffer :=
  mkFIFO (buffer fifo) (size fifo) (head fifo) t (count fifo)
         (high_watermark fifo) (low_watermark fifo) (overwrite_enabled fifo).

Definition set_count (fifo : FIFO_Buffer) (c : Z) : FIFO_Buffer :=
  mkFIFO (buffer fifo) (size fifo) (head fifo) (tail fifo) c
         (high_watermark fifo) (low_watermark fifo) (overwrite_enabled fifo).

(** ** uart_message_fifo.h *)

Definition MESSAGE_START_BYTE : Z := 0xAA.
Definition BUFFER_SIZE : Z := 128.

(** ** fifo_buffer.c *)

Section Target.

Variable wide_int : bool.

(** [FIFO_Init(fifo, buffer, size)]: every field is assigned, so the former
    value of [*fifo] does not matter. *)
Definition FIFO_Init (storage : list Z) (sz : Z) : FIFO_Buffer :=
  mkFIFO storage sz 0 0 0
         (to_u16 (promoted wide_int (sz - sz / 4)))
         (to_u16 (sz / 4))
         false.

(** [FIFO_Init_Dynamic(fifo, size)].  [allocated] is what [malloc] answered:
    [None] for [NULL], otherwise the bytes of the new block.  On failure only
    the [buffer] field has been assigned. *)
Definition FIFO_Init_Dynamic (allocated : option (list Z))
    (fifo : FIFO_Buffer) (sz : Z) : FIFO_Buffer * bool :=
  match allocated with
  | None => (set_buffer fifo [], false)
  | Some storage =>
      (mkFIFO storage sz 0 0 0 (to_u16 (promoted wide_int (sz - 1))) 1 false,
       true)
  end.

Definition FIFO_Free (fifo : FIFO_Buffer) : FIFO_Buffer :=
  set_buffer fifo [].

Definition FIFO_Reset (fifo : FIFO_Buffer) : FIFO_Buffer :=
  set_count (set_tail (set_head fifo 0) 0) 0.

(** The two statements that end [FIFO_Push] and [FIFO_PushOverwrite]:
    [fifo->buffer[fifo->head] = data; fifo->head = (fifo->head + 1) % fifo->size;] *)
Definition insert_at_head (fifo : FIFO_Buffer) (data : Z) : option FIFO_Buffer :=
  b ← store (buffer fifo) (head fifo) data;
  h ← c_mod (promoted wide_int (head fifo + 1)) (size fifo);
  Some (set_head (set_buffer fifo b) (to_u16 h)).

Definition FIFO_Push (fifo : FIFO_Buffer) (data : Z) : option (FIFO_Buffer * bool) :=
  if count fifo =? size fifo then
    if overwrite_enabled fifo then
      t ← c_mod (promoted wide_int (tail fifo + 1)) (size fifo);
      fifo' ← insert_at_head (set_tail fifo (to_u16 t)) data;
      Some (fifo', true)
    else Some (fifo, false)
  else
    fifo' ← insert_at_head (set_count fifo (to_u16 (count fifo + 1))) data;
    Some (fifo', true).

Definition FIFO_PushOverwrite (fifo : FIFO_Buffer) (data : Z) : option FIFO_Buffer :=
  if count fifo =? size fifo then
    t ← c_mod (promoted wide_int (tail fifo + 1)) (size fifo);
    insert_at_head (set_tail fifo (to_u16 t)) data
  else
    insert_at_head (set_count fifo (to_u16 (count fifo + 1))) data.

Definition FIFO_Pop (fifo : FIFO_Buffer) : option (FIFO_Buffer * option Z) :=
  if count fifo =? 0 then Some (fifo, None)
  else
    data ← load (buffer fifo) (tail fifo);
    t ← c_mod (promoted wide_int (tail fifo + 1)) (size fifo);
    Some (set_count (set_tail fifo (to_u16 t)) (to_u16 (count fifo - 1)),
          Some data).

Definition FIFO_Peek (fifo : FIFO_Buffer) (index : Z) : option (option Z) :=
  if index >=? count fifo then Some None
  else
    position ← c_mod (promoted wide_int (tail fifo + index)) (size fifo);
    data ← load (buffer fifo) (to_u16 position);
    Some (Some data).

Definition FIFO_IsEmpty (fifo : FIFO_Buffer) : bool := count fifo =? 0.

Definition FIFO_IsFull (fifo : FIFO_Buffer) : bool := count fifo =? size fifo.

Definition FIFO_SetOverwrite (fifo : FIFO_Buffer) (enable : bool) : FIFO_Buffer :=
  mkFIFO (buffer fifo) (size fifo) (head fifo) (tail fifo) (count fifo)
         (high_watermark fifo) (low_watermark fifo) enable.

(** Which branch of the conditional of [FIFO_CheckWatermarks] a call enters.
    Both branches are empty in the source (a comment marks where an event
    would be triggered), so this is not something the call hands back. *)
Inductive watermark_branch : Type :=
  | HighWatermark   (* count >= high_watermark *)
  | LowWatermark    (* else count <= low_watermark *)
  | NoWatermark.

(** [FIFO_CheckWatermarks] instrumented with the branch it enters. *)
Definition FIFO_CheckWatermarks_branch (fifo : FIFO_Buffer)
    : FIFO_Buffer * watermark_branch :=
  if count fifo >=? high_watermark fifo then (fifo, HighWatermark)
  else if count fifo <=? low_watermark fifo then (fifo, LowWatermark)
  else (fifo, NoWatermark).

(** [void FIFO_CheckWatermarks(FIFO_Buffer *fifo)]: the ring after the call
    and the (empty) result of the call. *)
Definition FIFO_CheckWatermarks (fifo : FIFO_Buffer) : FIFO_Buffer * unit :=
  (fst (FIFO_CheckWatermarks_branch fifo), tt).

(** ** uart_message_fifo.c *)

(** [for (uint8_t i = ...; i < length; i++) if (!FIFO_Push(fifo, message[i])) return false;]
    A [uint8_t] counter below a [uint8_t] bound is incremented at most 255
    times, so a bound of 256 tests of the condition is never reached. *)
Fixpoint add_loop (fuel : nat) (fifo : FIFO_Buffer) (message : list Z)
    (length i : Z) : option (FIFO_Buffer * bool) :=
  match fuel with
  | O => None
  | S fuel' =>
      if i <? length then
        data ← load message i;
        '(fifo', pushed) ← FIFO_Push fifo data;
        if (pushed : bool) then add_loop fuel' fifo' message length (to_u8 (i + 1))
        else Some (fifo', false)
      else Some (fifo, true)
  end.

Definition Add_UART_Message (fifo : FIFO_Buffer) (message : list Z) (length : Z)
    : option (FIFO_Buffer * bool) :=
  if (length <? 3) || (promoted wide_int (BUFFER_SIZE - count fifo) <? length)
  then Some (fifo, false)
  else add_loop 256 fifo message length 0.

(** The payload loop of [Get_UART_Message].  The last component is
    [Some checksum] when the loop ran to its end and [None] when it left the
    function with [return false]. *)
Fixpoint payload_loop (fuel : nat) (fifo : FIFO_Buffer) (message : list Z)
    (message_length checksum i : Z)
    : option (FIFO_Buffer * list Z * option Z) :=
  match fuel with
  | O => None
  | S fuel' =>
      if i <? message_length then
        '(fifo', popped) ← FIFO_Pop fifo;
        match popped with
        | None => Some (fifo', message, None)
        | Some data =>
            message' ← store message i data;
            payload_loop fuel' fifo' message' message_length
                         (to_u8 (Z.lxor checksum data)) (to_u8 (i + 1))
        end
      else Some (fifo, message, Some checksum)
  end.

(** [Get_UART_Message(fifo, message, length)]: [message] and [length] are the
    contents of the caller's array and of [*length] before the call; the
    result gives the ring, the array, [*length] and the returned value. *)
Definition Get_UART_Message (fifo : FIFO_Buffer) (message : list Z) (length : Z)
    : option (FIFO_Buffer * list Z * Z * bool) :=
  if FIFO_IsEmpty fifo then Some (fifo, message, length, false)
  else
    '(fifo1, start_byte) ← FIFO_Pop fifo;
    match start_byte with
    | None => Some (fifo1, message, length, false)
    | Some start_byte =>
        if negb (start_byte =? MESSAGE_START_BYTE)
        then Some (fifo1, message, length, false)
        else
          '(fifo2, message_length) ← FIFO_Pop fifo1;
          match message_length with
          | None => Some (fifo2, message, length, false)
          | Some message_length =>
              if message_length <? 3
              then Some (fifo2, message, length, false)
              else
                message0 ← store message 0 MESSAGE_START_BYTE;
                message1 ← store message0 1 message_length;
                '(fifo3, message2, checksum) ←
                  payload_loop 256 fifo2 message1 message_length 0 2;
                match checksum with
                | None => Some (fifo3, message2, message_length, false)
                | Some checksum =>
                    if negb (checksum =? 0)
                    then Some (fifo3, message2, message_length, false)
                    else Some (fifo3, message2, message_length, true)
                end
          end
    end.

(** ** Sequences of calls *)

(** Push the bytes of [bs] one after the other; the result lists what each
    [FIFO_Push] returned. *)
Fixpoint push_all (fifo : FIFO_Buffer) (bs : list Z)
    : option (FIFO_Buffer * list bool) :=
  match bs with
  | [] => Some (fifo, [])
  | b :: bs' =>
      '(fifo', r) ← FIFO_Push fifo b;
      '(fifo'', rs) ← push_all fifo' bs';
      Some (fifo'', r :: rs)
  end.

(** Call [FIFO_Pop] [n] times; the result lists the outcome of each call. *)
Fixpoint pop_n (fifo : FIFO_Buffer) (n : nat)
    : option (FIFO_Buffer * list (option Z)) :=
  match n with
  | O => Some (fifo, [])
  | S n' =>
      '(fifo', r) ← FIFO_Pop fifo;
      '(fifo'', rs) ← pop_n fifo' n';
      Some (fifo'', r :: rs)
  end.

(** The calls that change or read a ring. *)
Inductive fifo_call : Type :=
  | CallPush (data : Z)
  | CallPushOverwrite (data : Z)
  | CallPop
  | CallPeek (index : Z)
  | CallReset
  | CallSetOverwrite (enable : bool).

Definition do_call (fifo : FIFO_Buffer) (c : fifo_call) : option FIFO_Buffer :=
  match c with
  | CallPush data => '(fifo', _) ← FIFO_Push fifo data; Some fifo'
  | CallPushOverwrite data => FIFO_PushOverwrite fifo data
  | CallPop => '(fifo', _) ← FIFO_Pop fifo; Some fifo'
  | CallPeek index => _ ← FIFO_Peek fifo index; Some fifo
  | CallReset => Some (FIFO_Reset fifo)
  | CallSetOverwrite enable => Some (FIFO_SetOverwrite fifo enable)
  end.

Fixpoint do_calls (fifo : FIFO_Buffer) (cs : list fifo_call) : option FIFO_Buffer :=
  match cs with
  | [] => Some fifo
  | c :: cs' => fifo' ← do_call fifo c; do_calls fifo' cs'
  end.

End Target.

(** ** The ring seen as a queue *)

(** Physical index of the logical position [i] (data model: "data at logical
    position i resides at physical index (tail + i) mod size"). *)
Definition slot (fifo : FIFO_Buffer) (i : nat) : Z :=
  (tail fifo + Z.of_nat i) mod size fifo.

(** The stored bytes, oldest first. *)
Definition contents (fifo : FIFO_Buffer) : list Z :=
  map (fun i => default 0 (buffer fifo !! Z.to_nat (slot fifo i)))
      (seq 0 (Z.to_nat (count fifo))).

(** The invariant of the bookkeeping fields. *)
Record fifo_inv (fifo : FIFO_Buffer) : Prop := mk_fifo_inv {
  inv_count : 0 <= count fifo <= size fifo;
  inv_head : 0 <= head fifo < size fifo;
  inv_tail : 0 <= tail fifo < size fifo;
  inv_head_tail : head fifo = (tail fifo + count fifo) mod size fifo
}.

(** A ring in working order: the capacity fits [uint16_t], the storage has
    room for it, and the bookkeeping invariant holds. *)
Record fifo_ok (fifo : FIFO_Buffer) : Prop := mk_fifo_ok {
  ok_size : 1 <= size fifo < 65536;
  ok_storage : size fifo <= Z.of_nat (length (buffer fifo));
  ok_inv : fifo_inv fifo
}.

(** A ring set up by one of the two initialisation functions, with a
    capacity of at least one byte and a storage that holds it. *)
Inductive initialised (wide_int : bool) : FIFO_Buffer -> Prop :=
  | init_static storage sz :
      1 <= sz < 65536 -> sz <= Z.of_nat (length storage) ->
      initialised wide_int (FIFO_Init wide_int storage sz)
  | init_dynamic block old sz :
      1 <= sz < 65536 -> sz <= Z.of_nat (length block) ->
      initialised wide_int (fst (FIFO_Init_Dynamic wide_int (Some block) old sz)).

(** XOR of a sequence of bytes. *)
Definition xor_bytes (bs : list Z) : Z := foldr Z.lxor 0 bs.

(** The ring after a byte was stored at [head], and after the byte at [tail]
    was taken out, written without the machine conversions. *)
Definition pushed (fifo : FIFO_Buffer) (data : Z) : FIFO_Buffer :=
  mkFIFO (<[Z.to_nat (head fifo) := data]> (buffer fifo)) (size fifo)
         ((head fifo + 1) mod size fifo) (tail fifo) (count fifo + 1)
         (high_watermark fifo) (low_watermark fifo) (overwrite_enabled fifo).

Definition popped (fifo : FIFO_Buffer) : FIFO_Buffer :=
  mkFIFO (buffer fifo) (size fifo) (head fifo)
         ((tail fifo + 1) mod size fifo) (count fifo - 1)
         (high_watermark fifo) (low_watermark fifo) (overwrite_enabled fifo).

(** ** The remaining functions of fifo_buffer.c *)

Section Interrupts.

Variable wide_int : bool.

(** [cli()] comes with the AVR headers, not with these sources: what it makes
    of the status register is left open. *)
Variable cli : Z -> Z.

(** [FIFO_PushSafe(fifo, data)], on a machine whose status register holds
    [SREG].  The result gives the status register while [FIFO_Push] runs,
    the status register after the call, the ring and the returned value. *)
Definition FIFO_PushSafe (SREG : Z) (fifo : FIFO_Buffer) (data : Z)
    : option (Z * Z * FIFO_Buffer * bool) :=
  let sreg := to_u8 SREG in
  let during := cli SREG in
  '(fifo', result) ← FIFO_Push wide_int fifo data;
  Some (during, sreg, fifo', result).

Definition FIFO_PopSafe (SREG : Z) (fifo : FIFO_Buffer)
    : option (Z * Z * FIFO_Buffer * option Z) :=
  let sreg := to_u8 SREG in
  let during := cli SREG in
  '(fifo', result) ← FIFO_Pop wide_int fifo;
  Some (during, sreg, fifo', result).

End Interrupts.

Section Printing.

Variable wide_int : bool.

(** What [FIFO_DebugPrint] hands to [printf], call after call. *)
Inductive debug_line : Type :=
  | DebugTitle                                   (* "FIFO Debug Info:\n" *)
  | DebugState (size count head tail : Z)        (* "Size: %u, Count: %u, ..." *)
  | DebugEntry (index data : Z).                 (* "Index %u: %02X\n" *)

(** [for (uint16_t i = ...; i < fifo->count; i++)].  When [FIFO_Peek] returns
    [false] the local [data] is printed without having been given a value:
    no defined output. *)
Fixpoint debug_loop (fuel : nat) (fifo : FIFO_Buffer) (i : Z)
    : option (list debug_line) :=
  match fuel with
  | O => None
  | S fuel' =>
      if i <? count fifo then
        peeked ← FIFO_Peek wide_int fifo i;
        data ← peeked;
        rest ← debug_loop fuel' fifo (to_u16 (i + 1));
        Some (DebugEntry i data :: rest)
      else Some []
  end.

(** A [uint16_t] counter below a [uint16_t] bound: at most [2^16] tests. *)
Definition FIFO_DebugPrint (fifo : FIFO_Buffer) : option (list debug_line) :=
  entries ← debug_loop (Z.to_nat 65536) fifo 0;
  Some (DebugTitle
          :: DebugState (size fifo) (count fifo) (head fifo) (tail fifo)
          :: entries).

End Printing.

(** ** More sequences of calls *)

Section MoreCalls.

Variable wide_int : bool.




(** [FIFO_PushOverwrite] on each byte of [bs] in turn. *)
Fixpoint push_overwrite_all (fifo : FIFO_Buffer) (bs : list Z)
    : option FIFO_Buffer :=
  match bs with
  | [] => Some fifo
  | b :: bs' =>
      fifo' ← FIFO_PushOverwrite wide_int fifo b;
      push_overwrite_all fifo' bs'
  end.

(** [n] calls of [Get_UART_Message] with the same array and the same
    [length] variable, as a polling loop makes them.  Each call is recorded
    as [Some] of the message it delivered ([message[0 .. *length - 1]]) when
    it returned [true] and as [None] when it returned [false]. *)
Fixpoint get_messages (fifo : FIFO_Buffer) (message : list Z) (length : Z)
    (n : nat) : option (FIFO_Buffer * list (option (list Z))) :=
  match n with
  | O => Some (fifo, [])
  | S n' =>
      '(fifo', message', length', result) ←
        Get_UART_Message wide_int fifo message length;
      '(fifo'', rs) ← get_messages fifo' message' length' n';
      Some (fifo'',
            (if (result : bool)
             then Some (take (Z.to_nat length') message') else None) :: rs)
  end.

End MoreCalls.

(** ** The bounded queue the ring stands for *)

(** The last [n] elements of [l]. *)
Definition keep_last (n : nat) (l : list Z) : list Z :=
  drop (List.length l - n) l.




(** A message as [Get_UART_Message] accepts it: start byte, its own length
    ([>= 3], in a byte), and bytes from offset 2 that XOR to zero. *)
Definition valid_frame (m : list Z) : Prop :=
  exists L payload,
    m = MESSAGE_START_BYTE :: L :: payload
    /\ 3 <= L < 256
    /\ Z.of_nat (List.length payload) = L - 2
    /\ Forall is_u8 payload
    /\ xor_bytes payload = 0.

(** The second ring differs from the first by its [tail] and [count] at
    most. *)
Definition only_popped (fifo fifo' : FIFO_Buffer) : Prop :=
  buffer fifo' = buffer fifo
  /\ size fifo' = size fifo
  /\ head fifo' = head fifo
  /\ high_watermark fifo' = high_watermark fifo
  /\ low_watermark fifo' = low_watermark fifo
  /\ overwrite_enabled fifo' = overwrite_enabled fifo.

(** * Proofs *)

(** [fifo_ok] and [Forall is_u8] on rings and byte lists given in full. *)
Ltac concrete_ring_ok :=
  split; [simpl; lia | simpl; lia | split; simpl; first [lia | reflexivity]].

Ltac concrete_bytes :=
  repeat (apply Forall_cons_2; [unfold is_u8; lia|]); apply Forall_nil_2.

Ltac concrete_frame L payload :=
  exists L, payload;
  split; [reflexivity|]; split; [lia|]; split; [reflexivity|];
  split; [concrete_bytes|reflexivity].

(** ** Machine arithmetic *)

Lemma to_u8_small z : 0 <= z < 256 -> to_u8 z = z.
Proof. intros H. unfold to_u8. apply Z.mod_small. exact H. Qed.

Lemma to_u16_small z : 0 <= z < 65536 -> to_u16 z = z.
Proof. intros H. unfold to_u16. apply Z.mod_small. exact H. Qed.

Lemma promoted_small w z : 0 <= z < 65536 -> promoted w z = z.
Proof.
  intros H. unfold promoted. destruct w; [reflexivity|].
  apply Z.mod_small. exact H.
Qed.

Lemma c_mod_nonzero a b : b <> 0 -> c_mod a b = Some (a mod b).
Proof.
  intros H. unfold c_mod. destruct (Z.eqb_spec b 0); [contradiction|reflexivity].
Qed.

(** Two integers closer than [n] with the same remainder modulo [n] are equal. *)
Lemma mod_close_inj n a b :
  0 < n -> a mod n = b mod n -> - n < a - b < n -> a = b.
Proof.
  intros Hn Hab Hclose.
  pose proof (Z.div_mod a n ltac:(lia)) as Ha.
  pose proof (Z.div_mod b n ltac:(lia)) as Hb.
  assert (Hd : a - b = n * (a / n - b / n)) by lia.
  assert (a / n - b / n = 0) by nia.
  lia.
Qed.

Lemma succ_mod_add n t i : 0 < n -> ((t + 1) mod n + i) mod n = (t + (i + 1)) mod n.
Proof.
  intros Hn. rewrite Zplus_mod_idemp_l. f_equal. lia.
Qed.

Lemma mod_range n a : 0 < n -> 0 <= a mod n < n.
Proof. intros Hn. apply Z.mod_pos_bound. exact Hn. Qed.

(** XOR keeps bytes bytes. *)
Lemma lxor_u8 a b : is_u8 a -> is_u8 b -> is_u8 (Z.lxor a b).
Proof.
  unfold is_u8. intros [Ha0 Ha] [Hb0 Hb].
  assert (H0 : 0 <= Z.lxor a b) by (apply Z.lxor_nonneg; lia).
  split; [exact H0|].
  destruct (Z.eq_dec (Z.lxor a b) 0) as [->|Hne]; [lia|].
  apply (Z.log2_lt_pow2 _ 8); [lia|].
  eapply Z.le_lt_trans; [apply Z.log2_lxor; lia|].
  apply Z.max_lub_lt.
  - destruct (Z.eq_dec a 0) as [->|]; [reflexivity|]. apply Z.log2_lt_pow2; lia.
  - destruct (Z.eq_dec b 0) as [->|]; [reflexivity|]. apply Z.log2_lt_pow2; lia.
Qed.

(** ** Arrays *)

Lemma load_lookup (a : list Z) i :
  0 <= i -> load a i = a !! Z.to_nat i.
Proof.
  intros H. unfold load. destruct (Z.ltb_spec i 0); [lia|reflexivity].
Qed.

Lemma store_in_range (a : list Z) i v :
  0 <= i < Z.of_nat (length a) -> store a i v = Some (<[Z.to_nat i := v]> a).
Proof.
  intros [H0 H1]. unfold store.
  destruct (Z.leb_spec 0 i); [|lia].
  destruct (Z.ltb_spec i (Z.of_nat (length a))); [reflexivity|lia].
Qed.

(** ** One push, one pop *)

Section Ring.

Variable wide_int : bool.

Lemma insert_at_head_ok fifo data :
  1 <= size fifo < 65536 ->
  size fifo <= Z.of_nat (length (buffer fifo)) ->
  0 <= head fifo < size fifo ->
  insert_at_head wide_int fifo data
  = Some (set_head (set_buffer fifo (<[Z.to_nat (head fifo) := data]> (buffer fifo)))
                   ((head fifo + 1) mod size fifo)).
Proof.
  intros Hs Hb Hh. unfold insert_at_head.
  rewrite store_in_range by lia. simpl.
  rewrite promoted_small by lia.
  rewrite c_mod_nonzero by lia. simpl.
  rewrite to_u16_small; [reflexivity|].
  pose proof (mod_range (size fifo) (head fifo + 1)). lia.
Qed.

Lemma FIFO_Push_room fifo data :
  fifo_ok fifo -> count fifo < size fifo ->
  FIFO_Push wide_int fifo data = Some (pushed fifo data, true).
Proof.
  intros [Hs Hb [Hc Hh Ht Hht]] Hlt. unfold FIFO_Push.
  destruct (Z.eqb_spec (count fifo) (size fifo)); [lia|].
  rewrite insert_at_head_ok by (simpl; lia). simpl.
  rewrite to_u16_small by lia. reflexivity.
Qed.

Lemma FIFO_PushOverwrite_room fifo data :
  fifo_ok fifo -> count fifo < size fifo ->
  FIFO_PushOverwrite wide_int fifo data = Some (pushed fifo data).
Proof.
  intros [Hs Hb [Hc Hh Ht Hht]] Hlt. unfold FIFO_PushOverwrite.
  destruct (Z.eqb_spec (count fifo) (size fifo)); [lia|].
  rewrite insert_at_head_ok by (simpl; lia). simpl.
  rewrite to_u16_small by lia. reflexivity.
Qed.

Lemma FIFO_Pop_nonempty fifo :
  fifo_ok fifo -> 0 < count fifo ->
  FIFO_Pop wide_int fifo
  = Some (popped fifo, Some (default 0 (buffer fifo !! Z.to_nat (tail fifo)))).
Proof.
  intros [Hs Hb [Hc Hh Ht Hht]] Hlt. unfold FIFO_Pop.
  destruct (Z.eqb_spec (count fifo) 0); [lia|].
  rewrite load_lookup by lia.
  destruct (lookup_lt_is_Some_2 (buffer fifo) (Z.to_nat (tail fifo))) as [x Hx]; [lia|].
  rewrite Hx. simpl.
  rewrite promoted_small by lia.
  rewrite c_mod_nonzero by lia. simpl.
  rewrite to_u16_small by (pose proof (mod_range (size fifo) (tail fifo + 1)); lia).
  rewrite to_u16_small by lia. reflexivity.
Qed.

Lemma FIFO_Pop_empty fifo :
  count fifo = 0 -> FIFO_Pop wide_int fifo = Some (fifo, None).
Proof. intros H. unfold FIFO_Pop. rewrite H. reflexivity. Qed.

(** On a full ring with overwrite enabled, a push is a pop followed by a
    push into the room the pop made. *)
Lemma FIFO_Push_full_overwrite fifo data :
  fifo_ok fifo -> count fifo = size fifo -> overwrite_enabled fifo = true ->
  FIFO_Push wide_int fifo data = Some (pushed (popped fifo) data, true).
Proof.
  intros [Hs Hb [Hc Hh Ht Hht]] Hfull Hov. unfold FIFO_Push.
  rewrite Hfull, Z.eqb_refl, Hov.
  rewrite promoted_small by lia.
  rewrite c_mod_nonzero by lia. simpl.
  rewrite insert_at_head_ok by (simpl; lia). simpl.
  rewrite to_u16_small by (pose proof (mod_range (size fifo) (tail fifo + 1)); lia).
  unfold pushed, popped, set_head, set_buffer, set_tail. simpl.
  rewrite Hfull. do 3 f_equal. lia.
Qed.

Lemma FIFO_PushOverwrite_full fifo data :
  fifo_ok fifo -> count fifo = size fifo ->
  FIFO_PushOverwrite wide_int fifo data = Some (pushed (popped fifo) data).
Proof.
  intros [Hs Hb [Hc Hh Ht Hht]] Hfull. unfold FIFO_PushOverwrite.
  rewrite Hfull, Z.eqb_refl.
  rewrite promoted_small by lia.
  rewrite c_mod_nonzero by lia. simpl.
  rewrite insert_at_head_ok by (simpl; lia). simpl.
  rewrite to_u16_small by (pose proof (mod_range (size fifo) (tail fifo + 1)); lia).
  unfold pushed, popped, set_head, set_buffer, set_tail. simpl.
  rewrite Hfull. do 2 f_equal. lia.
Qed.

End Ring.

(** ** The invariant and the queue contents across a push and a pop *)

Lemma length_contents fifo : length (contents fifo) = Z.to_nat (count fifo).
Proof. unfold contents. rewrite length_map, length_seq. reflexivity. Qed.

Lemma fifo_ok_pushed fifo data :
  fifo_ok fifo -> count fifo < size fifo -> fifo_ok (pushed fifo data).
Proof.
  intros [Hs Hb [Hc Hh Ht Hht]] Hlt.
  split; simpl; [lia | rewrite length_insert; lia |].
  split; simpl; [lia | apply mod_range; lia | lia |].
  rewrite Hht, Zplus_mod_idemp_l. f_equal. lia.
Qed.

Lemma fifo_ok_popped fifo :
  fifo_ok fifo -> 0 < count fifo -> fifo_ok (popped fifo).
Proof.
  intros [Hs Hb [Hc Hh Ht Hht]] Hlt.
  split; simpl; [lia | lia |].
  split; simpl; [lia | lia | apply mod_range; lia |].
  rewrite Hht, Zplus_mod_idemp_l. f_equal. lia.
Qed.

Lemma slot_0 fifo : fifo_ok fifo -> slot fifo 0 = tail fifo.
Proof.
  intros [Hs Hb [Hc Hh Ht Hht]]. unfold slot. simpl.
  rewrite Z.add_0_r. apply Z.mod_small. lia.
Qed.

Lemma slot_count fifo :
  fifo_ok fifo -> slot fifo (Z.to_nat (count fifo)) = head fifo.
Proof.
  intros [Hs Hb [Hc Hh Ht Hht]]. unfold slot.
  rewrite Z2Nat.id by lia. symmetry. exact Hht.
Qed.

Lemma slot_range fifo i : fifo_ok fifo -> 0 <= slot fifo i < size fifo.
Proof. intros [Hs _ _]. unfold slot. apply mod_range. lia. Qed.

(** The stored positions are pairwise distinct slots. *)
Lemma slot_inj fifo i j :
  fifo_ok fifo ->
  (i <= Z.to_nat (size fifo))%nat -> (j <= Z.to_nat (size fifo))%nat ->
  (i < j)%nat -> (j - i < Z.to_nat (size fifo))%nat ->
  slot fifo i <> slot fifo j.
Proof.
  intros [Hs _ _] Hi Hj Hij Hd Heq. unfold slot in Heq.
  apply mod_close_inj in Heq; lia.
Qed.

Lemma slot_popped fifo i :
  fifo_ok fifo -> slot (popped fifo) i = slot fifo (S i).
Proof.
  intros [Hs _ _]. unfold slot. simpl tail. simpl size.
  rewrite succ_mod_add by lia. f_equal. lia.
Qed.

Lemma contents_pushed fifo data :
  fifo_ok fifo -> count fifo < size fifo ->
  contents (pushed fifo data) = contents fifo ++ [data].
Proof.
  intros Hok Hlt.
  pose proof Hok as [Hs Hb [Hc Hh Ht Hht]].
  unfold contents. simpl count. simpl buffer.
  replace (Z.to_nat (count fifo + 1)) with (S (Z.to_nat (count fifo))) by lia.
  rewrite seq_S, map_app. simpl map. f_equal.
  - apply map_ext_in. intros i Hi. apply in_seq in Hi.
    change (slot (pushed fifo data) i) with (slot fifo i).
    rewrite list_lookup_insert_ne; [reflexivity|].
    rewrite <- (slot_count fifo Hok). intros Heq.
    apply Z2Nat.inj in Heq;
      [| pose proof (slot_range fifo (Z.to_nat (count fifo)) Hok); lia
       | pose proof (slot_range fifo i Hok); lia].
    symmetry in Heq. revert Heq. apply slot_inj; [exact Hok|lia..].
  - change (slot (pushed fifo data) (Z.to_nat (count fifo)))
      with (slot fifo (Z.to_nat (count fifo))).
    rewrite (slot_count fifo Hok).
    rewrite list_lookup_insert_eq by lia. reflexivity.
Qed.

Lemma contents_popped fifo :
  fifo_ok fifo -> 0 < count fifo ->
  contents fifo
  = default 0 (buffer fifo !! Z.to_nat (tail fifo)) :: contents (popped fifo).
Proof.
  intros Hok Hlt.
  pose proof Hok as [Hs Hb [Hc Hh Ht Hht]].
  unfold contents. simpl count. simpl buffer.
  replace (Z.to_nat (count fifo)) with (S (Z.to_nat (count fifo - 1))) by lia.
  simpl seq. simpl map. rewrite (slot_0 fifo Hok). f_equal.
  rewrite <- seq_shift, map_map.
  apply map_ext. intros i. rewrite (slot_popped fifo i Hok). reflexivity.
Qed.

Lemma contents_nil fifo : fifo_ok fifo -> (contents fifo = [] <-> count fifo = 0).
Proof.
  intros [Hs Hb [Hc Hh Ht Hht]]. split; intros H.
  - apply (f_equal length) in H. rewrite length_contents in H. simpl in H. lia.
  - unfold contents. rewrite H. reflexivity.
Qed.

Lemma contents_cons_count fifo x xs :
  contents fifo = x :: xs -> 0 < count fifo.
Proof.
  intros H. apply (f_equal length) in H. rewrite length_contents in H.
  simpl in H. lia.
Qed.

(** [FIFO_Pop] takes the queue's first byte. *)
Lemma FIFO_Pop_contents wide_int fifo x xs :
  fifo_ok fifo -> contents fifo = x :: xs ->
  FIFO_Pop wide_int fifo = Some (popped fifo, Some x)
  /\ fifo_ok (popped fifo) /\ contents (popped fifo) = xs.
Proof.
  intros Hok Hc.
  pose proof (contents_cons_count _ _ _ Hc) as Hpos.
  rewrite (contents_popped fifo Hok Hpos) in Hc. injection Hc as Hx Hxs.
  rewrite (FIFO_Pop_nonempty wide_int fifo Hok Hpos), Hx.
  split; [reflexivity|]. split; [apply fifo_ok_popped; assumption|exact Hxs].
Qed.

(** [FIFO_Push] into a ring with room appends to the queue. *)
Lemma FIFO_Push_contents wide_int fifo data :
  fifo_ok fifo -> count fifo < size fifo ->
  FIFO_Push wide_int fifo data = Some (pushed fifo data, true)
  /\ fifo_ok (pushed fifo data)
  /\ contents (pushed fifo data) = contents fifo ++ [data].
Proof.
  intros Hok Hlt. split; [apply FIFO_Push_room; assumption|].
  split; [apply fifo_ok_pushed; assumption|apply contents_pushed; assumption].
Qed.

(** ** Initialisation *)

Lemma FIFO_Init_ok wide_int storage sz :
  1 <= sz < 65536 -> sz <= Z.of_nat (length storage) ->
  fifo_ok (FIFO_Init wide_int storage sz).
Proof.
  intros Hs Hb. split; simpl; [lia | lia |].
  split; simpl; [lia | lia | lia |].
  symmetry. apply Z.mod_0_l. lia.
Qed.

Lemma FIFO_Init_Dynamic_ok wide_int block old sz :
  1 <= sz < 65536 -> sz <= Z.of_nat (length block) ->
  fifo_ok (fst (FIFO_Init_Dynamic wide_int (Some block) old sz)).
Proof.
  intros Hs Hb. split; simpl; [lia | lia |].
  split; simpl; [lia | lia | lia |].
  symmetry. apply Z.mod_0_l. lia.
Qed.

Lemma FIFO_Reset_ok fifo : fifo_ok fifo -> fifo_ok (FIFO_Reset fifo).
Proof.
  intros [Hs Hb _]. split; simpl; [lia | lia |].
  split; simpl; [lia | lia | lia |].
  symmetry. apply Z.mod_0_l. lia.
Qed.

Lemma FIFO_SetOverwrite_ok fifo enable :
  fifo_ok fifo -> fifo_ok (FIFO_SetOverwrite fifo enable).
Proof.
  intros [Hs Hb [Hc Hh Ht Hht]]. split; simpl; [lia | lia |].
  split; simpl; assumption.
Qed.

Lemma initialised_ok wide_int fifo : initialised wide_int fifo -> fifo_ok fifo.
Proof.
  intros [storage sz Hs Hb | block old sz Hs Hb].
  - apply FIFO_Init_ok; assumption.
  - apply FIFO_Init_Dynamic_ok; assumption.
Qed.

(** ** Every call keeps the ring in working order *)

Section Calls.

Variable wide_int : bool.

Lemma FIFO_Peek_defined fifo index :
  fifo_ok fifo -> exists r, FIFO_Peek wide_int fifo index = Some r.
Proof.
  intros [Hs Hb [Hc Hh Ht Hht]]. unfold FIFO_Peek.
  destruct (index >=? count fifo); [eexists; reflexivity|].
  rewrite c_mod_nonzero by lia. simpl.
  set (p := promoted wide_int (tail fifo + index) mod size fifo).
  assert (Hp : 0 <= p < size fifo) by (apply mod_range; lia).
  rewrite to_u16_small by lia. rewrite load_lookup by lia.
  destruct (lookup_lt_is_Some_2 (buffer fifo) (Z.to_nat p)) as [x Hx]; [lia|].
  rewrite Hx. simpl. eexists; reflexivity.
Qed.

Lemma FIFO_Push_ok fifo data :
  fifo_ok fifo ->
  exists fifo' r, FIFO_Push wide_int fifo data = Some (fifo', r) /\ fifo_ok fifo'.
Proof.
  intros Hok. pose proof Hok as [Hs Hb [Hc Hh Ht Hht]].
  destruct (Z.eq_dec (count fifo) (size fifo)) as [Hfull|Hroom].
  - destruct (overwrite_enabled fifo) eqn:Hov.
    + rewrite FIFO_Push_full_overwrite by assumption.
      do 2 eexists. split; [reflexivity|].
      apply fifo_ok_pushed; [apply fifo_ok_popped; [assumption|lia]|simpl; lia].
    + unfold FIFO_Push. rewrite Hfull, Z.eqb_refl, Hov.
      do 2 eexists. split; [reflexivity|assumption].
  - rewrite FIFO_Push_room by (assumption || lia).
    do 2 eexists. split; [reflexivity|]. apply fifo_ok_pushed; [assumption|lia].
Qed.

Lemma FIFO_PushOverwrite_ok fifo data :
  fifo_ok fifo ->
  exists fifo', FIFO_PushOverwrite wide_int fifo data = Some fifo' /\ fifo_ok fifo'.
Proof.
  intros Hok. pose proof Hok as [Hs Hb [Hc Hh Ht Hht]].
  destruct (Z.eq_dec (count fifo) (size fifo)) as [Hfull|Hroom].
  - rewrite FIFO_PushOverwrite_full by assumption.
    eexists. split; [reflexivity|].
    apply fifo_ok_pushed; [apply fifo_ok_popped; [assumption|lia]|simpl; lia].
  - rewrite FIFO_PushOverwrite_room by (assumption || lia).
    eexists. split; [reflexivity|]. apply fifo_ok_pushed; [assumption|lia].
Qed.

Lemma FIFO_Pop_ok fifo :
  fifo_ok fifo ->
  exists fifo' r, FIFO_Pop wide_int fifo = Some (fifo', r) /\ fifo_ok fifo'.
Proof.
  intros Hok. pose proof Hok as [Hs Hb [Hc Hh Ht Hht]].
  destruct (Z.eq_dec (count fifo) 0) as [Hempty|Hne].
  - rewrite FIFO_Pop_empty by assumption.
    do 2 eexists. split; [reflexivity|assumption].
  - rewrite FIFO_Pop_nonempty by (assumption || lia).
    do 2 eexists. split; [reflexivity|]. apply fifo_ok_popped; [assumption|lia].
Qed.

Lemma do_call_ok fifo c :
  fifo_ok fifo ->
  exists fifo', do_call wide_int fifo c = Some fifo' /\ fifo_ok fifo'.
Proof.
  intros Hok. destruct c as [data|data| |index| |enable]; simpl.
  - destruct (FIFO_Push_ok fifo data Hok) as (fifo' & r & -> & Hok').
    simpl. eauto.
  - apply FIFO_PushOverwrite_ok. assumption.
  - destruct (FIFO_Pop_ok fifo Hok) as (fifo' & r & -> & Hok').
    simpl. eauto.
  - destruct (FIFO_Peek_defined fifo index Hok) as [r ->]. simpl. eauto.
  - eexists. split; [reflexivity|]. apply FIFO_Reset_ok. assumption.
  - eexists. split; [reflexivity|]. apply FIFO_SetOverwrite_ok. assumption.
Qed.

Lemma do_calls_ok cs : forall fifo,
  fifo_ok fifo ->
  exists fifo', do_calls wide_int fifo cs = Some fifo' /\ fifo_ok fifo'.
Proof.
  induction cs as [|c cs IH]; intros fifo Hok; simpl.
  - eauto.
  - destruct (do_call_ok fifo c Hok) as (fifo1 & -> & Hok1). simpl.
    apply IH. assumption.
Qed.

(** C9. Starting from a ring set up by [FIFO_Init] or [FIFO_Init_Dynamic]
    with a capacity of at least one, every sequence of calls of [FIFO_Push],
    [FIFO_PushOverwrite], [FIFO_Pop], [FIFO_Peek], [FIFO_Reset] (and
    [FIFO_SetOverwrite]) runs to its end and leaves a ring with
    [0 <= count <= size], [head < size], [tail < size] and
    [head = (tail + count) mod size]; in particular [head = tail] whenever
    [count = 0]. *)
Theorem calls_preserve_invariant fifo cs :
  initialised wide_int fifo ->
  exists fifo',
    do_calls wide_int fifo cs = Some fifo'
    /\ fifo_inv fifo'
    /\ (count fifo' = 0 -> head fifo' = tail fifo').
Proof.
  intros Hinit.
  destruct (do_calls_ok cs fifo (initialised_ok _ _ Hinit))
    as (fifo' & Hrun & Hok').
  exists fifo'. split; [exact Hrun|]. split; [apply Hok'|].
  destruct Hok' as [Hs Hb [Hc Hh Ht Hht]]. intros H0.
  rewrite Hht, H0, Z.add_0_r. apply Z.mod_small. lia.
Qed.

(** C5. On a full ring with overwrite disabled, [FIFO_Push] returns [false]
    and leaves the whole ring (count, head, tail, every stored byte) as it
    was. *)
Theorem FIFO_Push_full_no_overwrite fifo data :
  count fifo = size fifo -> overwrite_enabled fifo = false ->
  FIFO_Push wide_int fifo data = Some (fifo, false).
Proof.
  intros Hfull Hov. unfold FIFO_Push.
  rewrite Hfull, Z.eqb_refl, Hov. reflexivity.
Qed.

End Calls.

(** ** Peeking *)

(** [FIFO_Peek] reads the queue at a logical position, as long as
    [tail + index] is computed without wrapping (always so when [int] is
    wider than 16 bits, and for capacities up to [2^15] otherwise). *)
Lemma FIFO_Peek_contents wide_int fifo index :
  fifo_ok fifo -> 0 <= index < count fifo ->
  promoted wide_int (tail fifo + index) = tail fifo + index ->
  exists x,
    FIFO_Peek wide_int fifo index = Some (Some x)
    /\ contents fifo !! Z.to_nat index = Some x.
Proof.
  intros Hok Hi Hnowrap. pose proof Hok as [Hs Hb [Hc Hh Ht Hht]].
  unfold FIFO_Peek.
  destruct (Z.geb_spec index (count fifo)); [lia|].
  rewrite Hnowrap, c_mod_nonzero by lia. simpl.
  pose proof (mod_range (size fifo) (tail fifo + index) ltac:(lia)) as Hp.
  rewrite to_u16_small by lia. rewrite load_lookup by lia.
  destruct (lookup_lt_is_Some_2 (buffer fifo)
              (Z.to_nat ((tail fifo + index) mod size fifo))) as [x Hx]; [lia|].
  rewrite Hx. simpl. exists x. split; [reflexivity|].
  unfold contents.
  change (map ?f ?l) with (f <$> l).
  rewrite list_lookup_fmap, lookup_seq_lt by lia. simpl.
  unfold slot. rewrite Z2Nat.id by lia. rewrite Hx. reflexivity.
Qed.

Lemma FIFO_Peek_out_of_range wide_int fifo index :
  count fifo <= index -> FIFO_Peek wide_int fifo index = Some None.
Proof.
  intros H. unfold FIFO_Peek.
  destruct (Z.geb_spec index (count fifo)); [reflexivity|lia].
Qed.

(** ** Overwriting the oldest byte *)

Section Overwrite.

Variable wide_int : bool.

Lemma full_head_is_tail fifo :
  fifo_ok fifo -> count fifo = size fifo -> head fifo = tail fifo.
Proof.
  intros [Hs Hb [Hc Hh Ht Hht]] Hfull.
  rewrite Hht, Hfull.
  replace (tail fifo + size fifo) with (tail fifo + 1 * size fifo) by lia.
  rewrite Z.mod_add by lia. apply Z.mod_small. lia.
Qed.

(** C4. On a full ring with overwrite enabled, [FIFO_Push] returns [true],
    keeps [count = size], moves [tail] forward by one modulo [size], stores
    the byte at the former [head], and the byte that was the oldest can no
    longer be read back: the queue is the former one without its first byte
    followed by the new byte, and the ring after the call is the same
    whatever the oldest byte was, so that no later call can depend on it. *)
Theorem FIFO_Push_full_overwrite_discards_oldest fifo data :
  fifo_ok fifo -> count fifo = size fifo -> overwrite_enabled fifo = true ->
  exists fifo',
    FIFO_Push wide_int fifo data = Some (fifo', true)
    /\ size fifo' = size fifo
    /\ count fifo' = size fifo
    /\ tail fifo' = (tail fifo + 1) mod size fifo
    /\ buffer fifo' !! Z.to_nat (head fifo) = Some data
    /\ contents fifo' = tl (contents fifo) ++ [data]
    /\ (forall oldest,
         FIFO_Push wide_int
           (set_buffer fifo (<[Z.to_nat (tail fifo) := oldest]> (buffer fifo)))
           data
         = Some (fifo', true)).
Proof.
  intros Hok Hfull Hov. pose proof Hok as [Hs Hb [Hc Hh Ht Hht]].
  assert (Hpos : 0 < count fifo) by lia.
  pose proof (fifo_ok_popped fifo Hok Hpos) as Hokp.
  exists (pushed (popped fifo) data).
  split; [apply FIFO_Push_full_overwrite; assumption|].
  split; [reflexivity|]. split; [simpl; lia|]. split; [reflexivity|].
  split; [simpl; apply list_lookup_insert_eq; lia|].
  split.
  - rewrite contents_pushed by (assumption || (simpl; lia)).
    rewrite (contents_popped fifo Hok Hpos). reflexivity.
  - intros oldest.
    set (fifo0 := set_buffer fifo _).
    assert (Hok0 : fifo_ok fifo0).
    { split; simpl; [lia | rewrite length_insert; lia |].
      split; simpl; assumption. }
    rewrite (FIFO_Push_full_overwrite wide_int fifo0 data Hok0 Hfull Hov).
    unfold pushed, popped, fifo0. simpl.
    rewrite (full_head_is_tail fifo Hok Hfull).
    rewrite list_insert_insert_eq. reflexivity.
Qed.

End Overwrite.

(** ** First in, first out *)

Section Order.

Variable wide_int : bool.

Lemma push_all_room bs : forall fifo,
  fifo_ok fifo -> count fifo + Z.of_nat (length bs) <= size fifo ->
  exists fifo',
    push_all wide_int fifo bs = Some (fifo', replicate (length bs) true)
    /\ fifo_ok fifo'
    /\ size fifo' = size fifo
    /\ count fifo' = count fifo + Z.of_nat (length bs)
    /\ contents fifo' = contents fifo ++ bs.
Proof.
  induction bs as [|b bs IH]; intros fifo Hok Hroom; simpl in *.
  - exists fifo. rewrite app_nil_r.
    split; [reflexivity|]. split; [assumption|]. split; [reflexivity|].
    split; [lia|reflexivity].
  - destruct (FIFO_Push_contents wide_int fifo b Hok ltac:(lia))
      as (Hpush & Hok1 & Hc1).
    rewrite Hpush. simpl.
    destruct (IH (pushed fifo b) Hok1 ltac:(simpl; lia))
      as (fifo' & Hrun & Hok' & Hsz & Hcnt & Hcont).
    rewrite Hrun. simpl. exists fifo'.
    split; [reflexivity|]. split; [assumption|].
    split; [exact Hsz|]. split; [simpl in Hcnt; lia|].
    rewrite Hcont, Hc1, <- app_assoc. reflexivity.
Qed.

Lemma pop_n_contents xs : forall fifo rest,
  fifo_ok fifo -> contents fifo = xs ++ rest ->
  exists fifo',
    pop_n wide_int fifo (length xs) = Some (fifo', map Some xs)
    /\ fifo_ok fifo'
    /\ contents fifo' = rest.
Proof.
  induction xs as [|x xs IH]; intros fifo rest Hok Hc; simpl in *.
  - exists fifo. split; [reflexivity|]. split; assumption.
  - destruct (FIFO_Pop_contents wide_int fifo x (xs ++ rest) Hok Hc)
      as (Hpop & Hok1 & Hc1).
    rewrite Hpop. simpl.
    destruct (IH (popped fifo) rest Hok1 Hc1) as (fifo' & Hrun & Hok' & Hcont).
    rewrite Hrun. simpl. exists fifo'.
    split; [reflexivity|]. split; assumption.
Qed.

(** C3. On an empty ring in working order (capacity at least one), pushing
    [n <= size] bytes in order with [FIFO_Push] succeeds at every push, and
    [n] calls of [FIFO_Pop] then all succeed and give the same bytes in the
    same order, leaving the ring empty. *)
Theorem push_then_pop_in_order fifo bs :
  fifo_ok fifo -> count fifo = 0 -> Z.of_nat (length bs) <= size fifo ->
  exists fifo1 fifo2,
    push_all wide_int fifo bs = Some (fifo1, replicate (length bs) true)
    /\ pop_n wide_int fifo1 (length bs) = Some (fifo2, map Some bs)
    /\ count fifo2 = 0.
Proof.
  intros Hok Hempty Hn.
  destruct (push_all_room bs fifo Hok ltac:(lia))
    as (fifo1 & Hpush & Hok1 & _ & _ & Hc1).
  rewrite (proj2 (contents_nil fifo Hok) Hempty) in Hc1. simpl in Hc1.
  destruct (pop_n_contents bs fifo1 [] Hok1 ltac:(rewrite app_nil_r; exact Hc1))
    as (fifo2 & Hpop & Hok2 & Hc2).
  exists fifo1, fifo2. split; [exact Hpush|]. split; [exact Hpop|].
  apply (contents_nil fifo2 Hok2). exact Hc2.
Qed.

End Order.

(** ** Watermarks *)

(** C8 (as amended). [FIFO_CheckWatermarks] hands nothing back and leaves the
    ring as it was; its conditional enters the high branch when
    [count >= high_watermark], otherwise the low branch when
    [count <= low_watermark], otherwise none, so that the high branch wins
    when the thresholds overlap; the branches being empty, nothing is done in
    reaction. *)
Theorem FIFO_CheckWatermarks_detects_only fifo :
  FIFO_CheckWatermarks fifo = (fifo, tt)
  /\ fst (FIFO_CheckWatermarks_branch fifo) = fifo
  /\ (high_watermark fifo <= count fifo ->
      snd (FIFO_CheckWatermarks_branch fifo) = HighWatermark)
  /\ (count fifo < high_watermark fifo -> count fifo <= low_watermark fifo ->
      snd (FIFO_CheckWatermarks_branch fifo) = LowWatermark)
  /\ (count fifo < high_watermark fifo -> low_watermark fifo < count fifo ->
      snd (FIFO_CheckWatermarks_branch fifo) = NoWatermark).
Proof.
  unfold FIFO_CheckWatermarks, FIFO_CheckWatermarks_branch.
  destruct (Z.geb_spec (count fifo) (high_watermark fifo));
    destruct (Z.leb_spec (count fifo) (low_watermark fifo)); simpl;
    repeat split; intros; solve [reflexivity | lia].
Qed.

(** ** The framing layer *)

Section Framing.

Variable wide_int : bool.

(** The payload loop pops until the message is complete or the ring is
    empty, writes what it popped behind the bytes [pre] already written, and
    folds it into the checksum. *)
Lemma payload_loop_pops fuel : forall fifo pre old L checksum i bytes,
  fifo_ok fifo ->
  Z.of_nat (length pre) = i -> i <= L < 256 ->
  (Z.to_nat (L - i) < fuel)%nat ->
  bytes = take (Z.to_nat (L - i)) (contents fifo) ->
  (length bytes <= length old)%nat ->
  is_u8 checksum -> Forall is_u8 bytes ->
  exists fifo',
    payload_loop wide_int fuel fifo (pre ++ old) L checksum i
    = Some (fifo', pre ++ bytes ++ drop (length bytes) old,
            if L - i <=? Z.of_nat (length (contents fifo))
            then Some (Z.lxor checksum (xor_bytes bytes)) else None)
    /\ fifo_ok fifo'
    /\ contents fifo' = drop (Z.to_nat (L - i)) (contents fifo).
Proof.
  induction fuel as [|fuel IH];
    intros fifo pre old L checksum i bytes Hok Hi HL Hfuel Hbytes Hroom Hck Hu8;
    [lia|].
  simpl. destruct (Z.ltb_spec i L) as [Hlt|Hge].
  - destruct (contents fifo) as [|x xs] eqn:Hc.
    + rewrite (FIFO_Pop_empty wide_int fifo
                 (proj1 (contents_nil fifo Hok) Hc)). simpl.
      rewrite take_nil in Hbytes. subst bytes. simpl.
      destruct (Z.leb_spec (L - i) (Z.of_nat 0)); [lia|].
      exists fifo. rewrite drop_nil. split; [reflexivity|].
      split; assumption.
    + destruct (FIFO_Pop_contents wide_int fifo x xs Hok Hc)
        as (Hpop & Hokp & Hcp).
      rewrite Hpop. simpl.
      replace (Z.to_nat (L - i)) with (S (Z.to_nat (L - (i + 1)))) in * by lia.
      simpl in Hbytes. subst bytes.
      set (bytes' := take (Z.to_nat (L - (i + 1))) xs) in *.
      destruct old as [|o old']; [simpl in Hroom; lia|].
      rewrite store_in_range by (rewrite length_app; simpl; lia). simpl.
      replace (Z.to_nat i) with (length pre + 0)%nat by lia.
      rewrite insert_app_r. simpl.
      apply Forall_cons in Hu8 as [Hx Hu8].
      rewrite (to_u8_small (i + 1)) by lia.
      rewrite (to_u8_small (Z.lxor checksum x)) by (apply lxor_u8; assumption).
      destruct (IH (popped fifo) (pre ++ [x]) old' L (Z.lxor checksum x)
                   (i + 1) bytes' Hokp)
        as (fifo' & Hrun & Hok' & Hc');
        [rewrite length_app; simpl; lia | lia | lia
        | rewrite Hcp; reflexivity | simpl in Hroom; lia
        | apply lxor_u8; assumption | assumption |].
      rewrite <- app_assoc in Hrun. simpl in Hrun. rewrite Hrun.
      exists fifo'. split; [|split; [assumption|rewrite Hc', Hcp; reflexivity]].
      rewrite Hcp. rewrite Z.lxor_assoc.
      rewrite <- app_assoc. simpl app.
      destruct (Z.leb_spec (L - (i + 1)) (Z.of_nat (length xs)));
        destruct (Z.leb_spec (L - i) (Z.of_nat (S (length xs))));
        solve [reflexivity | lia].
  - assert (Hz : L - i = 0) by lia. rewrite Hz in *.
    change (Z.to_nat 0) with 0%nat in *.
    rewrite take_0 in Hbytes. subst bytes. simpl.
    destruct (Z.leb_spec 0 (Z.of_nat (length (contents fifo)))); [|lia].
    rewrite Z.lxor_0_r. exists fifo. split; [reflexivity|].
    split; [assumption|reflexivity].
Qed.

(** The loop of [Add_UART_Message] pushes the bytes [i .. length-1]. *)
Lemma add_loop_room fuel : forall fifo message len i,
  fifo_ok fifo ->
  0 <= i <= len -> len < 256 ->
  (Z.to_nat (len - i) < fuel)%nat ->
  len <= Z.of_nat (List.length message) ->
  count fifo + (len - i) <= size fifo ->
  exists fifo',
    add_loop wide_int fuel fifo message len i = Some (fifo', true)
    /\ fifo_ok fifo'
    /\ size fifo' = size fifo
    /\ contents fifo'
       = contents fifo ++ drop (Z.to_nat i) (take (Z.to_nat len) message).
Proof.
  induction fuel as [|fuel IH];
    intros fifo message len i Hok Hi Hlen Hfuel Hmsg Hroom; [lia|].
  simpl. destruct (Z.ltb_spec i len) as [Hlt|Hge].
  - rewrite load_lookup by lia.
    destruct (lookup_lt_is_Some_2 message (Z.to_nat i)) as [x Hx]; [lia|].
    rewrite Hx. simpl.
    destruct (FIFO_Push_contents wide_int fifo x Hok ltac:(lia))
      as (Hpush & Hok1 & Hc1).
    rewrite Hpush. simpl.
    rewrite (to_u8_small (i + 1)) by lia.
    destruct (IH (pushed fifo x) message len (i + 1) Hok1)
      as (fifo' & Hrun & Hok' & Hsz & Hc'); [lia | lia | lia | lia | simpl; lia |].
    exists fifo'. split; [exact Hrun|]. split; [assumption|].
    split; [exact Hsz|].
    rewrite Hc', Hc1, <- app_assoc. f_equal. simpl.
    replace (Z.to_nat (i + 1)) with (S (Z.to_nat i)) by lia.
    symmetry. apply drop_S. rewrite lookup_take_lt by lia. exact Hx.
  - assert (i = len) by lia. subst i.
    exists fifo. split; [reflexivity|]. split; [assumption|].
    split; [reflexivity|].
    rewrite drop_ge by (rewrite length_take; lia).
    rewrite app_nil_r. reflexivity.
Qed.

Local Arguments payload_loop : simpl never.
Local Arguments add_loop : simpl never.

(** What [Get_UART_Message] does once the ring starts with the start byte
    and a length byte [L >= 3]: [bytes] are the payload bytes it can pop. *)
Lemma Get_UART_Message_framed fifo message length L rest bytes :
  fifo_ok fifo ->
  contents fifo = MESSAGE_START_BYTE :: L :: rest ->
  3 <= L < 256 ->
  bytes = take (Z.to_nat (L - 2)) rest ->
  (2 + List.length bytes <= List.length message)%nat ->
  Forall is_u8 bytes ->
  exists fifo',
    Get_UART_Message wide_int fifo message length
    = Some (fifo',
            MESSAGE_START_BYTE :: L :: bytes
              ++ drop (2 + List.length bytes) message,
            L,
            (L - 2 <=? Z.of_nat (List.length rest)) && (xor_bytes bytes =? 0))
    /\ fifo_ok fifo'
    /\ contents fifo' = drop (Z.to_nat (L - 2)) rest.
Proof.
  intros Hok Hc HL Hbytes Hroom Hu8.
  unfold Get_UART_Message, FIFO_IsEmpty.
  pose proof (contents_cons_count _ _ _ Hc) as Hpos.
  destruct (Z.eqb_spec (count fifo) 0); [lia|].
  destruct (FIFO_Pop_contents wide_int fifo _ _ Hok Hc) as (Hpop1 & Hok1 & Hc1).
  rewrite Hpop1. simpl.
  destruct (FIFO_Pop_contents wide_int (popped fifo) _ _ Hok1 Hc1)
    as (Hpop2 & Hok2 & Hc2).
  rewrite Hpop2. simpl.
  destruct (Z.ltb_spec L 3); [lia|].
  destruct message as [|a [|b old]]; [simpl in Hroom; lia..|].
  rewrite store_in_range by (simpl List.length; lia). simpl.
  rewrite store_in_range by (simpl List.length; lia). simpl.
  destruct (payload_loop_pops 256 (popped (popped fifo))
              [MESSAGE_START_BYTE; L] old L 0 2 bytes Hok2)
    as (fifo' & Hrun & Hok' & Hc');
    [reflexivity | lia | lia | rewrite Hc2; exact Hbytes
    | simpl in Hroom; lia | unfold is_u8; lia | assumption |].
  simpl app in Hrun. rewrite Hrun. simpl.
  rewrite Hc2 in *. exists fifo'.
  split; [|split; assumption].
  destruct (L - 2 <=? Z.of_nat (List.length rest)); simpl.
  - rewrite Z.lxor_0_l. destruct (xor_bytes bytes =? 0); reflexivity.
  - reflexivity.
Qed.

(** [Add_UART_Message] on a message that fits both the ring and the
    constant [BUFFER_SIZE]. *)
Lemma Add_UART_Message_room fifo message len :
  fifo_ok fifo ->
  3 <= len < 256 ->
  len <= Z.of_nat (List.length message) ->
  len <= BUFFER_SIZE - count fifo ->
  len <= size fifo - count fifo ->
  exists fifo',
    Add_UART_Message wide_int fifo message len = Some (fifo', true)
    /\ fifo_ok fifo'
    /\ size fifo' = size fifo
    /\ contents fifo' = contents fifo ++ take (Z.to_nat len) message.
Proof.
  intros Hok Hlen Hmsg Hconst Hroom.
  pose proof Hok as [Hs Hb [Hc Hh Ht Hht]].
  unfold Add_UART_Message. unfold BUFFER_SIZE in *.
  destruct (Z.ltb_spec len 3); [lia|]. simpl.
  rewrite promoted_small by lia.
  destruct (Z.ltb_spec (128 - count fifo) len); [lia|].
  destruct (add_loop_room 256 fifo message len 0 Hok)
    as (fifo' & Hrun & Hok' & Hsz & Hc'); [lia..|].
  exists fifo'. split; [exact Hrun|]. split; [assumption|].
  split; [exact Hsz|]. rewrite Hc'. reflexivity.
Qed.

(** On a ring whose capacity is [BUFFER_SIZE], the test of
    [Add_UART_Message] is the test of the free room. *)
Lemma Add_UART_Message_size_BUFFER_SIZE fifo message len :
  fifo_ok fifo -> size fifo = BUFFER_SIZE ->
  3 <= len < 256 ->
  len <= Z.of_nat (List.length message) ->
  if size fifo - count fifo <? len
  then Add_UART_Message wide_int fifo message len = Some (fifo, false)
  else exists fifo',
         Add_UART_Message wide_int fifo message len = Some (fifo', true)
         /\ contents fifo' = contents fifo ++ take (Z.to_nat len) message.
Proof.
  intros Hok Hsize Hlen Hmsg. pose proof Hok as [Hs Hb [Hc Hh Ht Hht]].
  destruct (Z.ltb_spec (size fifo - count fifo) len) as [Hfull|Hroom].
  - unfold Add_UART_Message. rewrite <- Hsize.
    rewrite promoted_small by lia.
    destruct (Z.ltb_spec len 3); [lia|].
    destruct (Z.ltb_spec (size fifo - count fifo) len); [reflexivity|lia].
  - destruct (Add_UART_Message_room fifo message len Hok Hlen Hmsg)
      as (fifo' & Hadd & _ & _ & Hc'); [lia..|].
    exists fifo'. split; assumption.
Qed.

(** Round trip of a well-formed message through an empty ring, for a length
    that passes the test against [BUFFER_SIZE]. *)
Lemma round_trip_within_BUFFER_SIZE fifo m len out outLen :
  fifo_ok fifo -> count fifo = 0 ->
  Z.of_nat (List.length m) = len -> 3 <= len -> len <= BUFFER_SIZE ->
  len <= size fifo ->
  m !! 0%nat = Some MESSAGE_START_BYTE -> m !! 1%nat = Some len ->
  xor_bytes (drop 2 m) = 0 -> Forall is_u8 m ->
  len <= Z.of_nat (List.length out) ->
  exists fifo1 fifo2 out',
    Add_UART_Message wide_int fifo m len = Some (fifo1, true)
    /\ Get_UART_Message wide_int fifo1 out outLen = Some (fifo2, out', len, true)
    /\ take (Z.to_nat len) out' = m
    /\ count fifo2 = 0.
Proof.
  intros Hok Hempty Hlen H3 Hconst Hsize Hstart Hlenbyte Hxor Hu8 Hout.
  unfold BUFFER_SIZE in Hconst.
  destruct (Add_UART_Message_room fifo m len Hok)
    as (fifo1 & Hadd & Hok1 & Hsz1 & Hc1); [unfold BUFFER_SIZE; lia..|].
  rewrite (proj2 (contents_nil fifo Hok) Hempty) in Hc1. simpl in Hc1.
  rewrite take_ge in Hc1 by lia.
  destruct m as [|a [|b payload]]; [simpl in Hlen; lia..|].
  simpl in Hstart, Hlenbyte. change (xor_bytes payload = 0) in Hxor.
  injection Hstart as ->. injection Hlenbyte as ->.
  assert (Hpl : Z.of_nat (List.length payload) = len - 2)
    by (simpl List.length in Hlen; lia).
  apply Forall_cons in Hu8 as [_ Hu8]. apply Forall_cons in Hu8 as [_ Hu8].
  destruct (Get_UART_Message_framed fifo1 out outLen len payload payload Hok1 Hc1)
    as (fifo2 & Hget & Hok2 & Hc2);
    [lia | rewrite take_ge by lia; reflexivity | lia | assumption |].
  rewrite Hxor in Hget.
  destruct (Z.leb_spec (len - 2) (Z.of_nat (List.length payload))); [|lia].
  simpl in Hget.
  exists fifo1, fifo2. eexists. split; [exact Hadd|]. split; [exact Hget|].
  split.
  - change (MESSAGE_START_BYTE :: len :: payload ++ ?t)
      with ((MESSAGE_START_BYTE :: len :: payload) ++ t).
    apply take_app_length'. simpl List.length. lia.
  - apply (contents_nil fifo2 Hok2). rewrite Hc2. apply drop_ge. lia.
Qed.

(** C7. On a non-empty ring whose byte at [tail] is not the start marker,
    [Get_UART_Message] returns [false] after it has taken exactly that byte
    out of the ring: [count] is one less, [tail] one further modulo [size],
    and nothing else has changed, the caller's array and [*length]
    included. *)
Theorem Get_UART_Message_invalid_start fifo message length x :
  fifo_ok fifo -> count fifo <> 0 ->
  buffer fifo !! Z.to_nat (tail fifo) = Some x ->
  x <> MESSAGE_START_BYTE ->
  exists fifo',
    Get_UART_Message wide_int fifo message length
    = Some (fifo', message, length, false)
    /\ count fifo' = count fifo - 1
    /\ tail fifo' = (tail fifo + 1) mod size fifo
    /\ head fifo' = head fifo
    /\ buffer fifo' = buffer fifo
    /\ size fifo' = size fifo.
Proof.
  intros Hok Hne Hx Hstart. pose proof Hok as [Hs Hb [Hc Hh Ht Hht]].
  exists (popped fifo). split; [|repeat split].
  unfold Get_UART_Message, FIFO_IsEmpty.
  destruct (Z.eqb_spec (count fifo) 0); [contradiction|].
  rewrite FIFO_Pop_nonempty by (assumption || lia).
  rewrite Hx. simpl.
  destruct (Z.eqb_spec x MESSAGE_START_BYTE); [contradiction|reflexivity].
Qed.

(** C6. When the ring starts with a message that is well formed but for its
    checksum (start byte, length byte [L >= 3], [L - 2] further bytes),
    [Get_UART_Message] takes the [L] bytes out of the ring, copies them to the
    caller and returns [true] exactly when the bytes at offsets [2 .. L-1]
    XOR to zero.  On a ring of capacity 8, after the pushes of
    [0xAA, 0x04, 0x10, 0x14] it returns [false], and after the pushes of
    [0xAA, 0x04, 0x10, 0x10] it returns [true] with [*length = 4]. *)
Theorem Get_UART_Message_checksum :
  (forall fifo message length L payload rest,
     fifo_ok fifo ->
     contents fifo = MESSAGE_START_BYTE :: L :: payload ++ rest ->
     3 <= L < 256 ->
     Z.of_nat (List.length payload) = L - 2 ->
     Forall is_u8 payload ->
     L <= Z.of_nat (List.length message) ->
     exists fifo',
       Get_UART_Message wide_int fifo message length
       = Some (fifo',
               MESSAGE_START_BYTE :: L :: payload ++ drop (Z.to_nat L) message,
               L, xor_bytes payload =? 0)
       /\ contents fifo' = rest)
  /\ (forall message length,
        4 <= Z.of_nat (List.length message) ->
        exists ring fifo' message',
          push_all wide_int (FIFO_Init wide_int (replicate 8 0) 8)
                   [0xAA; 0x04; 0x10; 0x14]
          = Some (ring, [true; true; true; true])
          /\ Get_UART_Message wide_int ring message length
             = Some (fifo', message', 4, false))
  /\ (forall message length,
        4 <= Z.of_nat (List.length message) ->
        exists ring fifo' message',
          push_all wide_int (FIFO_Init wide_int (replicate 8 0) 8)
                   [0xAA; 0x04; 0x10; 0x10]
          = Some (ring, [true; true; true; true])
          /\ Get_UART_Message wide_int ring message length
             = Some (fifo', message', 4, true)).
Proof.
  assert (Hgen : forall fifo message length L payload rest,
     fifo_ok fifo ->
     contents fifo = MESSAGE_START_BYTE :: L :: payload ++ rest ->
     3 <= L < 256 ->
     Z.of_nat (List.length payload) = L - 2 ->
     Forall is_u8 payload ->
     L <= Z.of_nat (List.length message) ->
     exists fifo',
       Get_UART_Message wide_int fifo message length
       = Some (fifo',
               MESSAGE_START_BYTE :: L :: payload ++ drop (Z.to_nat L) message,
               L, xor_bytes payload =? 0)
       /\ contents fifo' = rest).
  { intros fifo message length L payload rest Hok Hc HL Hpl Hu8 Hout.
    destruct (Get_UART_Message_framed fifo message length L (payload ++ rest)
                payload Hok Hc HL)
      as (fifo' & Hget & Hok' & Hc');
      [symmetry; apply take_app_length'; lia | lia | assumption |].
    exists fifo'. split.
    - rewrite Hget. rewrite length_app.
      destruct (Z.leb_spec (L - 2)
                  (Z.of_nat (List.length payload + List.length rest))); [|lia].
      replace (2 + List.length payload)%nat with (Z.to_nat L) by lia.
      reflexivity.
    - rewrite Hc'. apply drop_app_length'. lia. }
  assert (Hex : forall b3 message length,
     is_u8 b3 -> 4 <= Z.of_nat (List.length message) ->
     exists ring fifo' message',
       push_all wide_int (FIFO_Init wide_int (replicate 8 0) 8)
                [0xAA; 0x04; 0x10; b3]
       = Some (ring, [true; true; true; true])
       /\ Get_UART_Message wide_int ring message length
          = Some (fifo', message', 4, Z.lxor 0x10 (Z.lxor b3 0) =? 0)).
  { intros b3 message length Hb3 Hout.
    destruct (push_all_room wide_int [0xAA; 0x04; 0x10; b3]
                (FIFO_Init wide_int (replicate 8 0) 8))
      as (ring & Hpush & Hokr & _ & _ & Hcr);
      [apply FIFO_Init_ok; simpl; lia | simpl; lia |].
    change (contents (FIFO_Init wide_int (replicate 8 0) 8)) with (@nil Z) in Hcr.
    destruct (Hgen ring message length 4 [0x10; b3] [] Hokr Hcr)
      as (fifo' & Hget & _);
      [lia | reflexivity
      | apply Forall_cons_2;
          [unfold is_u8; lia
          | apply Forall_cons_2; [assumption | apply Forall_nil_2]]
      | lia |].
    exists ring, fifo'. eexists. split; [exact Hpush|exact Hget]. }
  split; [exact Hgen|]. split.
  - intros message length Hout.
    apply (Hex 0x14 message length); [unfold is_u8; lia|exact Hout].
  - intros message length Hout.
    apply (Hex 0x10 message length); [unfold is_u8; lia|exact Hout].
Qed.

(** C10. When [Get_UART_Message] has popped the start byte and a length byte
    [L >= 3], it stores [L] into [*length] and the start byte, [L] and every
    payload byte it pops into [message[0..]], whether or not it then returns
    [false]; it returns [false] exactly when the ring runs dry before the
    message is complete or the checksum is not zero, and whenever the ring
    held the [L - 2] payload bytes the caller's array starts with the whole
    [L]-byte message. *)
Theorem Get_UART_Message_failure_output fifo message length L rest bytes :
  fifo_ok fifo ->
  contents fifo = MESSAGE_START_BYTE :: L :: rest ->
  3 <= L < 256 ->
  bytes = take (Z.to_nat (L - 2)) rest ->
  (2 + List.length bytes <= List.length message)%nat ->
  Forall is_u8 bytes ->
  exists fifo' message' result,
    Get_UART_Message wide_int fifo message length
    = Some (fifo', message', L, result)
    /\ take (2 + List.length bytes) message' = MESSAGE_START_BYTE :: L :: bytes
    /\ (result = false
        <-> Z.of_nat (List.length rest) < L - 2 \/ xor_bytes bytes <> 0)
    /\ (L - 2 <= Z.of_nat (List.length rest) ->
        List.length bytes = Z.to_nat (L - 2)
        /\ take (Z.to_nat L) message' = MESSAGE_START_BYTE :: L :: bytes).
Proof.
  intros Hok Hc HL Hbytes Hroom Hu8.
  destruct (Get_UART_Message_framed fifo message length L rest bytes
              Hok Hc HL Hbytes Hroom Hu8) as (fifo' & Hget & _ & _).
  do 3 eexists. split; [exact Hget|].
  assert (Htake : take (2 + List.length bytes)
                    (MESSAGE_START_BYTE :: L :: bytes
                       ++ drop (2 + List.length bytes) message)
                  = MESSAGE_START_BYTE :: L :: bytes).
  { change (MESSAGE_START_BYTE :: L :: bytes ++ ?t)
      with ((MESSAGE_START_BYTE :: L :: bytes) ++ t).
    apply take_app_length'. reflexivity. }
  split; [exact Htake|]. split.
  - destruct (Z.leb_spec (L - 2) (Z.of_nat (List.length rest)));
      destruct (Z.eqb_spec (xor_bytes bytes) 0); simpl;
      split; intros; solve [discriminate | lia | reflexivity | tauto].
  - intros Hfull.
    assert (Hlen : List.length bytes = Z.to_nat (L - 2))
      by (rewrite Hbytes, length_take; lia).
    split; [exact Hlen|].
    replace (Z.to_nat L) with (2 + List.length bytes)%nat by lia.
    exact Htake.
Qed.

(** C1 (the code at inputs where it departs from the claim).
    [Add_UART_Message] tests the length against [BUFFER_SIZE - count], not
    against the free room [size - count] of the ring it is given.  A ring of
    capacity 200 holding 126 bytes has room for 74 more, and a 3-byte message
    is refused; a ring of capacity 8, empty, with overwrite enabled, has room
    for 8, and a 10-byte message is accepted. *)
Theorem Add_UART_Message_tests_BUFFER_SIZE :
  (exists ring,
     push_all wide_int (FIFO_Init wide_int (replicate 200 0) 200)
              (replicate 126 0)
     = Some (ring, replicate 126 true)
     /\ size ring - count ring = 74
     /\ Add_UART_Message wide_int ring [0xAA; 3; 0] 3 = Some (ring, false))
  /\ (exists ring ring',
        ring = FIFO_SetOverwrite (FIFO_Init wide_int (replicate 8 0) 8) true
        /\ size ring - count ring = 8
        /\ Add_UART_Message wide_int ring [0xAA; 10; 1; 2; 3; 4; 5; 6; 7; 0] 10
           = Some (ring', true)).
Proof.
  split.
  - destruct wide_int; eexists;
      (split; [vm_compute; reflexivity|]); split; vm_compute; reflexivity.
  - destruct wide_int; do 2 eexists;
      (split; [reflexivity|]); split; vm_compute; reflexivity.
Qed.

(** C2 (the code at an input where it departs from the claim).  An empty ring
    of capacity 200 and a well-formed message of 129 bytes (start byte,
    length byte 129, XOR of the bytes from offset 2 equal to zero):
    [Add_UART_Message] returns [false] and pushes nothing, because
    [BUFFER_SIZE - count = 128 < 129]. *)
Theorem round_trip_refused_above_BUFFER_SIZE :
  exists ring m,
    ring = FIFO_Init wide_int (replicate 200 0) 200
    /\ m = 0xAA :: 129 :: replicate 127 0
    /\ fifo_ok ring /\ count ring = 0 /\ 129 <= size ring
    /\ Z.of_nat (List.length m) = 129
    /\ m !! 0%nat = Some MESSAGE_START_BYTE /\ m !! 1%nat = Some 129
    /\ xor_bytes (drop 2 m) = 0
    /\ Add_UART_Message wide_int ring m 129 = Some (ring, false).
Proof.
  do 2 eexists. split; [reflexivity|]. split; [reflexivity|].
  split; [apply FIFO_Init_ok; simpl; lia|].
  destruct wide_int; repeat split; vm_compute; congruence.
Qed.

End Framing.

(** ** The theorems at concrete rings *)

(** The claim "it returns which of high, low or none applies" fails on the
    code: a full ring of capacity 4 (count 4, high watermark 3) is in the
    high case and an empty one (count 0, low watermark 1) in the low case,
    and the call hands back the same (empty) result on both, so that nothing
    computed from its result tells the two apart. *)
Lemma FIFO_CheckWatermarks_result_tells_nothing :
  snd (FIFO_CheckWatermarks_branch (mkFIFO [1; 2; 3; 4] 4 0 0 4 3 1 false))
  = HighWatermark
  /\ snd (FIFO_CheckWatermarks_branch (mkFIFO [1; 2; 3; 4] 4 0 0 0 3 1 false))
     = LowWatermark
  /\ ~ (exists answer : unit -> watermark_branch,
          answer (snd (FIFO_CheckWatermarks
                         (mkFIFO [1; 2; 3; 4] 4 0 0 4 3 1 false)))
          = HighWatermark
          /\ answer (snd (FIFO_CheckWatermarks
                            (mkFIFO [1; 2; 3; 4] 4 0 0 0 3 1 false)))
             = LowWatermark).
Proof.
  split; [reflexivity|]. split; [reflexivity|].
  intros (answer & Hhigh & Hlow). simpl in Hhigh, Hlow. congruence.
Qed.

Lemma FIFO_CheckWatermarks_detects_only_witness :
  snd (FIFO_CheckWatermarks_branch (mkFIFO [1; 2; 3; 4] 4 0 0 4 3 4 false))
  = HighWatermark.
Proof.
  apply (proj1 (proj2 (proj2 (FIFO_CheckWatermarks_detects_only
                                (mkFIFO [1; 2; 3; 4] 4 0 0 4 3 4 false))))).
  simpl. lia.
Defined.

Lemma calls_preserve_invariant_witness :
  exists fifo',
    do_calls false (FIFO_Init false (replicate 2 0) 2)
      [CallSetOverwrite true; CallPush 1; CallPush 2; CallPush 3;
       CallPop; CallPeek 0; CallPushOverwrite 4; CallPop; CallPop]
    = Some fifo'
    /\ fifo_inv fifo'
    /\ (count fifo' = 0 -> head fifo' = tail fifo').
Proof.
  apply (calls_preserve_invariant false).
  apply init_static; simpl; lia.
Defined.

Lemma FIFO_Push_full_no_overwrite_witness :
  FIFO_Push false (mkFIFO [1; 2] 2 1 1 2 1 0 false) 3
  = Some (mkFIFO [1; 2] 2 1 1 2 1 0 false, false).
Proof.
  apply (FIFO_Push_full_no_overwrite false); reflexivity.
Defined.

Lemma FIFO_Push_full_overwrite_discards_oldest_witness :
  exists fifo',
    FIFO_Push false (mkFIFO [1; 2] 2 1 1 2 1 0 true) 3 = Some (fifo', true)
    /\ size fifo' = 2
    /\ count fifo' = 2
    /\ tail fifo' = 0
    /\ buffer fifo' !! 1%nat = Some 3
    /\ contents fifo' = [1; 3]
    /\ (forall oldest,
         FIFO_Push false (mkFIFO [1; oldest] 2 1 1 2 1 0 true) 3
         = Some (fifo', true)).
Proof.
  apply (FIFO_Push_full_overwrite_discards_oldest false
           (mkFIFO [1; 2] 2 1 1 2 1 0 true) 3);
    [concrete_ring_ok | reflexivity | reflexivity].
Defined.

Lemma push_then_pop_in_order_witness :
  exists fifo1 fifo2,
    push_all false (FIFO_Init false (replicate 4 0) 4) [7; 8; 9]
    = Some (fifo1, [true; true; true])
    /\ pop_n false fifo1 3 = Some (fifo2, [Some 7; Some 8; Some 9])
    /\ count fifo2 = 0.
Proof.
  apply (push_then_pop_in_order false (FIFO_Init false (replicate 4 0) 4)
           [7; 8; 9]);
    [apply FIFO_Init_ok; simpl; lia | reflexivity | simpl; lia].
Defined.

Lemma Get_UART_Message_invalid_start_witness :
  exists fifo',
    Get_UART_Message false (mkFIFO [0x55; 0xAA; 3; 0] 4 0 0 4 3 1 false)
                     [0; 0; 0; 0] 9
    = Some (fifo', [0; 0; 0; 0], 9, false)
    /\ count fifo' = 3
    /\ tail fifo' = 1
    /\ head fifo' = 0
    /\ buffer fifo' = [0x55; 0xAA; 3; 0]
    /\ size fifo' = 4.
Proof.
  apply (Get_UART_Message_invalid_start false
           (mkFIFO [0x55; 0xAA; 3; 0] 4 0 0 4 3 1 false) [0; 0; 0; 0] 9 0x55);
    [concrete_ring_ok | simpl; lia | reflexivity
    | unfold MESSAGE_START_BYTE; lia].
Defined.

Lemma Get_UART_Message_checksum_witness :
  exists fifo',
    Get_UART_Message false
      (mkFIFO [0xAA; 4; 0x10; 0x14; 0; 0; 0; 0] 8 4 0 4 6 2 false)
      [0; 0; 0; 0; 0; 0] 0
    = Some (fifo', [0xAA; 4; 0x10; 0x14; 0; 0], 4, false)
    /\ contents fifo' = [].
Proof.
  apply (proj1 (Get_UART_Message_checksum false)
           (mkFIFO [0xAA; 4; 0x10; 0x14; 0; 0; 0; 0] 8 4 0 4 6 2 false)
           [0; 0; 0; 0; 0; 0] 0 4 [0x10; 0x14] []);
    [concrete_ring_ok | reflexivity | lia | reflexivity | concrete_bytes
    | simpl; lia].
Defined.

Lemma Get_UART_Message_failure_output_witness :
  exists fifo' message' result,
    Get_UART_Message false
      (mkFIFO [0xAA; 5; 0x10; 0x14; 0; 0; 0; 0] 8 4 0 4 6 2 false)
      [0; 0; 0; 0; 0; 0] 0
    = Some (fifo', message', 5, result)
    /\ take 4 message' = [0xAA; 5; 0x10; 0x14]
    /\ (result = false
        <-> 2 < 5 - 2 \/ xor_bytes [0x10; 0x14] <> 0)
    /\ (5 - 2 <= 2 ->
        2%nat = Z.to_nat (5 - 2)
        /\ take (Z.to_nat 5) message' = [0xAA; 5; 0x10; 0x14]).
Proof.
  apply (Get_UART_Message_failure_output false
           (mkFIFO [0xAA; 5; 0x10; 0x14; 0; 0; 0; 0] 8 4 0 4 6 2 false)
           [0; 0; 0; 0; 0; 0] 0 5 [0x10; 0x14] [0x10; 0x14]);
    [concrete_ring_ok | reflexivity | lia | reflexivity | simpl; lia
    | concrete_bytes].
Defined.

(** * Further properties of the code *)

(** ** The ring is a bounded queue *)

Section Refinement.

Variable wide_int : bool.

(** The sum [tail + index] of [FIFO_Peek] is computed without wrapping when
    [int] is wider than 16 bits, or when the capacity is at most [2^15]. *)
Lemma peek_sum_exact fifo index :
  fifo_ok fifo -> wide_int = true \/ size fifo <= 32768 ->
  0 <= index < count fifo ->
  promoted wide_int (tail fifo + index) = tail fifo + index.
Proof.
  intros [Hs Hb [Hc Hh Ht Hht]] [-> | Hsmall] Hi; [reflexivity|].
  apply promoted_small. lia.
Qed.

Lemma overwritten_ok fifo data :
  fifo_ok fifo -> count fifo = size fifo ->
  fifo_ok (pushed (popped fifo) data)
  /\ contents (pushed (popped fifo) data) = tl (contents fifo) ++ [data].
Proof.
  intros Hok Hfull. pose proof Hok as [Hs Hb [Hc Hh Ht Hht]].
  assert (Hpos : 0 < count fifo) by lia.
  pose proof (fifo_ok_popped fifo Hok Hpos) as Hokp.
  split; [apply fifo_ok_pushed; [assumption|simpl; lia]|].
  rewrite contents_pushed by (assumption || (simpl; lia)).
  rewrite (contents_popped fifo Hok Hpos). reflexivity.
Qed.

Lemma FIFO_Peek_lookup fifo index :
  fifo_ok fifo -> wide_int = true \/ size fifo <= 32768 ->
  0 <= index ->
  FIFO_Peek wide_int fifo index = Some (contents fifo !! Z.to_nat index).
Proof.
  intros Hok Hexact Hi. pose proof Hok as [Hs Hb [Hc Hh Ht Hht]].
  destruct (Z.lt_ge_cases index (count fifo)) as [Hlt|Hge].
  - destruct (FIFO_Peek_contents wide_int fifo index Hok ltac:(lia)
                (peek_sum_exact fifo index Hok Hexact ltac:(lia)))
      as (x & -> & ->). reflexivity.
  - rewrite FIFO_Peek_out_of_range by lia.
    rewrite (proj2 (lookup_ge_None (contents fifo) (Z.to_nat index)));
      [reflexivity|]. rewrite length_contents. lia.
Qed.



End Refinement.


(** ** Overwriting keeps the most recent bytes *)

Lemma keep_last_all n (l : list Z) :
  (length l <= n)%nat -> keep_last n l = l.
Proof.
  intros H. unfold keep_last.
  replace (length l - n)%nat with 0%nat by lia. reflexivity.
Qed.

Lemma keep_last_app n (l k : list Z) :
  keep_last n (keep_last n l ++ k) = keep_last n (l ++ k).
Proof.
  destruct (Nat.le_gt_cases (length l) n) as [Hle|Hgt].
  - rewrite (keep_last_all n l) by assumption. reflexivity.
  - unfold keep_last. rewrite !length_app, length_drop.
    rewrite <- (drop_app_le l k (length l - n)) by lia.
    rewrite drop_drop. f_equal. lia.
Qed.

Lemma length_keep_last n (l : list Z) :
  length (keep_last n l) = Nat.min n (length l).
Proof. unfold keep_last. rewrite length_drop. lia. Qed.

Section Window.

Variable wide_int : bool.

(** One overwriting push keeps the last [size] bytes. *)
Lemma FIFO_PushOverwrite_window fifo data :
  fifo_ok fifo ->
  exists fifo',
    FIFO_PushOverwrite wide_int fifo data = Some fifo'
    /\ fifo_ok fifo'
    /\ size fifo' = size fifo
    /\ overwrite_enabled fifo' = overwrite_enabled fifo
    /\ contents fifo'
       = keep_last (Z.to_nat (size fifo)) (contents fifo ++ [data]).
Proof.
  intros Hok. pose proof Hok as [Hs Hb [Hc Hh Ht Hht]].
  pose proof (length_contents fifo) as Hlen.
  destruct (Z.eq_dec (count fifo) (size fifo)) as [Hfull|Hroom].
  - rewrite FIFO_PushOverwrite_full by assumption.
    destruct (overwritten_ok fifo data Hok Hfull) as [Hok' Hc'].
    eexists. split; [reflexivity|]. split; [exact Hok'|].
    split; [reflexivity|]. split; [reflexivity|].
    rewrite Hc'. destruct (contents fifo) as [|x xs]; [simpl in Hlen; lia|].
    unfold keep_last. simpl tl. rewrite length_app. simpl length in *.
    replace (S (length xs) + 1 - Z.to_nat (size fifo))%nat with 1%nat by lia.
    reflexivity.
  - rewrite FIFO_PushOverwrite_room by (assumption || lia).
    eexists. split; [reflexivity|].
    split; [apply fifo_ok_pushed; [assumption|lia]|].
    split; [reflexivity|]. split; [reflexivity|].
    rewrite contents_pushed by (assumption || lia).
    symmetry. apply keep_last_all. rewrite length_app, Hlen. simpl. lia.
Qed.

(** With overwrite enabled [FIFO_Push] is [FIFO_PushOverwrite] returning
    [true], on every value of the struct. *)
Lemma FIFO_Push_as_PushOverwrite fifo data :
  overwrite_enabled fifo = true ->
  FIFO_Push wide_int fifo data
  = fifo' ← FIFO_PushOverwrite wide_int fifo data; Some (fifo', true).
Proof.
  intros Hov. unfold FIFO_Push, FIFO_PushOverwrite. rewrite Hov.
  destruct (count fifo =? size fifo); [|reflexivity].
  destruct (c_mod _ _); reflexivity.
Qed.

Lemma push_overwrite_all_window bs : forall fifo,
  fifo_ok fifo ->
  exists fifo',
    push_overwrite_all wide_int fifo bs = Some fifo'
    /\ fifo_ok fifo'
    /\ size fifo' = size fifo
    /\ contents fifo' = keep_last (Z.to_nat (size fifo)) (contents fifo ++ bs).
Proof.
  induction bs as [|b bs IH]; intros fifo Hok; simpl.
  - exists fifo. split; [reflexivity|]. split; [exact Hok|].
    split; [reflexivity|]. rewrite app_nil_r. symmetry.
    apply keep_last_all. rewrite length_contents.
    destruct Hok as [Hs Hb [Hc Hh Ht Hht]]. lia.
  - destruct (FIFO_PushOverwrite_window fifo b Hok)
      as (fifo1 & -> & Hok1 & Hsz1 & _ & Hc1). simpl.
    destruct (IH fifo1 Hok1) as (fifo' & Hrun & Hok' & Hsz & Hc').
    exists fifo'. split; [exact Hrun|]. split; [exact Hok'|].
    split; [lia|].
    rewrite Hc', Hc1, Hsz1, keep_last_app, <- app_assoc. reflexivity.
Qed.

(** X2. [FIFO_PushOverwrite] never fails on a ring in working order, and
    after pushing the bytes [bs] with it the ring holds the last [size] bytes
    of what it held followed by [bs], oldest first. *)
Theorem push_overwrite_all_keeps_last bs fifo :
  fifo_ok fifo ->
  exists fifo',
    push_overwrite_all wide_int fifo bs = Some fifo'
    /\ fifo_ok fifo'
    /\ size fifo' = size fifo
    /\ contents fifo' = keep_last (Z.to_nat (size fifo)) (contents fifo ++ bs).
Proof. apply push_overwrite_all_window. Qed.

(** X3. With overwrite enabled every [FIFO_Push] returns [true], and after
    pushing the bytes [bs] the ring is left holding the last [size] bytes of
    what it held followed by [bs]; once overwrite is disabled again, a ring
    that is full refuses every further byte and stays as it is. *)
Theorem push_all_overwrite_keeps_last bs : forall fifo,
  fifo_ok fifo -> overwrite_enabled fifo = true ->
  exists fifo',
    push_all wide_int fifo bs = Some (fifo', replicate (length bs) true)
    /\ fifo_ok fifo'
    /\ contents fifo' = keep_last (Z.to_nat (size fifo)) (contents fifo ++ bs)
    /\ (Z.to_nat (size fifo) <= length (contents fifo ++ bs) ->
        forall more,
          push_all wide_int (FIFO_SetOverwrite fifo' false) more
          = Some (FIFO_SetOverwrite fifo' false,
                  replicate (length more) false))%nat.
Proof.
  assert (Hrun : forall bs fifo,
    fifo_ok fifo -> overwrite_enabled fifo = true ->
    exists fifo',
      push_all wide_int fifo bs = Some (fifo', replicate (length bs) true)
      /\ push_overwrite_all wide_int fifo bs = Some fifo').
  { clear bs. induction bs as [|b bs IH]; intros fifo Hok Hov; simpl.
    - exists fifo. split; reflexivity.
    - rewrite FIFO_Push_as_PushOverwrite by assumption.
      destruct (FIFO_PushOverwrite_window fifo b Hok)
        as (fifo1 & -> & Hok1 & _ & Hov1 & _). simpl.
      destruct (IH fifo1 Hok1 ltac:(congruence)) as (fifo' & -> & Hpo).
      simpl. exists fifo'. split; [reflexivity|exact Hpo]. }
  intros fifo Hok Hov.
  destruct (Hrun bs fifo Hok Hov) as (fifo' & Hpush & Hpo).
  destruct (push_overwrite_all_window bs fifo Hok)
    as (fifo2 & Hpo2 & Hok' & Hsz & Hc').
  rewrite Hpo in Hpo2. injection Hpo2 as <-.
  exists fifo'. split; [exact Hpush|]. split; [exact Hok'|].
  split; [exact Hc'|].
  intros Hfull more.
  assert (Hcount : count fifo' = size fifo').
  { pose proof (length_contents fifo') as Hl.
    rewrite Hc', length_keep_last in Hl.
    destruct Hok' as [Hs Hb [Hc Hh Ht Hht]]. lia. }
  induction more as [|m more IHm]; simpl; [reflexivity|].
  unfold FIFO_Push at 1. simpl.
  rewrite Hcount, Z.eqb_refl. simpl. rewrite IHm. reflexivity.
Qed.

(** X4. On a ring in working order [FIFO_Push] returns [false] exactly when
    [FIFO_IsFull] holds and overwrite is disabled, [FIFO_Pop] returns [false]
    exactly when [FIFO_IsEmpty] holds, a call that returns [false] leaves the
    ring as it was, and [FIFO_IsEmpty] and [FIFO_IsFull] never hold
    together. *)
Theorem failure_iff_full_or_empty fifo data :
  fifo_ok fifo ->
  (exists fifo' r,
     FIFO_Push wide_int fifo data = Some (fifo', r)
     /\ r = negb (FIFO_IsFull fifo && negb (overwrite_enabled fifo))
     /\ (r = false -> fifo' = fifo))
  /\ (exists fifo' r,
        FIFO_Pop wide_int fifo = Some (fifo', r)
        /\ (r = None <-> FIFO_IsEmpty fifo = true)
        /\ (r = None -> fifo' = fifo))
  /\ FIFO_IsEmpty fifo && FIFO_IsFull fifo = false.
Proof.
  intros Hok. pose proof Hok as [Hs Hb [Hc Hh Ht Hht]].
  unfold FIFO_IsFull, FIFO_IsEmpty. split; [|split].
  - destruct (Z.eqb_spec (count fifo) (size fifo)) as [Hfull|Hroom].
    + destruct (overwrite_enabled fifo) eqn:Hov.
      * rewrite FIFO_Push_full_overwrite by assumption.
        do 2 eexists. split; [reflexivity|]. split; [reflexivity|discriminate].
      * unfold FIFO_Push. rewrite Hfull, Z.eqb_refl, Hov.
        do 2 eexists. split; [reflexivity|]. split; reflexivity.
    + rewrite FIFO_Push_room by (assumption || lia).
      do 2 eexists. split; [reflexivity|]. split; [reflexivity|discriminate].
  - destruct (Z.eqb_spec (count fifo) 0) as [Hempty|Hne].
    + rewrite FIFO_Pop_empty by assumption.
      do 2 eexists. split; [reflexivity|]. split; [tauto|reflexivity].
    + rewrite FIFO_Pop_nonempty by (assumption || lia).
      do 2 eexists. split; [reflexivity|].
      split; [split; discriminate|discriminate].
  - destruct (Z.eqb_spec (count fifo) 0);
      destruct (Z.eqb_spec (count fifo) (size fifo)); simpl;
      solve [reflexivity | lia].
Qed.

End Window.

Lemma push_overwrite_all_keeps_last_witness :
  exists fifo',
    push_overwrite_all false (FIFO_Init false (replicate 3 0) 3) [1; 2; 3; 4; 5]
    = Some fifo'
    /\ fifo_ok fifo'
    /\ size fifo' = 3
    /\ contents fifo' = [3; 4; 5].
Proof.
  apply (push_overwrite_all_keeps_last false [1; 2; 3; 4; 5]
           (FIFO_Init false (replicate 3 0) 3)).
  apply FIFO_Init_ok; simpl; lia.
Defined.

Lemma push_all_overwrite_keeps_last_witness :
  exists fifo',
    push_all false (mkFIFO [0; 0; 0] 3 0 0 0 3 0 true) [1; 2; 3; 4; 5]
    = Some (fifo', [true; true; true; true; true])
    /\ fifo_ok fifo'
    /\ contents fifo' = [3; 4; 5]
    /\ ((3 <= 5)%nat ->
        forall more,
          push_all false (FIFO_SetOverwrite fifo' false) more
          = Some (FIFO_SetOverwrite fifo' false,
                  replicate (length more) false)).
Proof.
  apply (push_all_overwrite_keeps_last false [1; 2; 3; 4; 5]
           (mkFIFO [0; 0; 0] 3 0 0 0 3 0 true));
    [concrete_ring_ok | reflexivity].
Defined.

Lemma failure_iff_full_or_empty_witness :
  (exists fifo' r,
     FIFO_Push false (mkFIFO [1; 2] 2 1 1 2 1 0 false) 3 = Some (fifo', r)
     /\ r = false
     /\ (r = false -> fifo' = mkFIFO [1; 2] 2 1 1 2 1 0 false))
  /\ (exists fifo' r,
        FIFO_Pop false (mkFIFO [1; 2] 2 1 1 2 1 0 false) = Some (fifo', r)
        /\ (r = None <-> false = true)
        /\ (r = None -> fifo' = mkFIFO [1; 2] 2 1 1 2 1 0 false))
  /\ false = false.
Proof.
  apply (failure_iff_full_or_empty false
           (mkFIFO [1; 2] 2 1 1 2 1 0 false) 3).
  concrete_ring_ok.
Defined.

(** ** Peeking, resetting, freeing *)

Section Access.

Variable wide_int : bool.

(** X5. With [int] wider than 16 bits, or a capacity of at most [2^15],
    [FIFO_Peek] at an index below [count] returns [true] with the byte at
    that position of the queue (position 0 is the byte [FIFO_Pop] would
    deliver), and at any other index returns [false]. *)
Theorem FIFO_Peek_reads_queue fifo index :
  fifo_ok fifo -> wide_int = true \/ size fifo <= 32768 -> 0 <= index ->
  FIFO_Peek wide_int fifo index = Some (contents fifo !! Z.to_nat index)
  /\ (index < count fifo -> is_Some (contents fifo !! Z.to_nat index))
  /\ (count fifo <= index -> contents fifo !! Z.to_nat index = None)
  /\ (index = 0 -> 0 < count fifo ->
      exists fifo',
        FIFO_Pop wide_int fifo = Some (fifo', contents fifo !! 0%nat)).
Proof.
  intros Hok Hexact Hi.
  split; [apply FIFO_Peek_lookup; assumption|].
  split; [|split].
  - intros Hlt. apply lookup_lt_is_Some. rewrite length_contents. lia.
  - intros Hge. apply lookup_ge_None. rewrite length_contents. lia.
  - intros _ Hpos. destruct (contents fifo) as [|x xs] eqn:Hc.
    + apply (contents_nil fifo Hok) in Hc. lia.
    + destruct (FIFO_Pop_contents wide_int fifo x xs Hok Hc) as (Hpop & _).
      exists (popped fifo). rewrite Hpop. reflexivity.
Qed.

(** X7. [FIFO_Reset] empties the ring whatever [head], [tail] and [count]
    were, without touching the storage, the capacity, the watermarks or the
    overwrite flag: provided the capacity is at least one and the storage
    holds it, the ring is in working order afterwards, [FIFO_Pop] and
    [FIFO_Peek] at index 0 return [false], and bytes pushed next come out
    first. *)
Theorem FIFO_Reset_empties fifo bs :
  1 <= size fifo < 65536 ->
  size fifo <= Z.of_nat (length (buffer fifo)) ->
  Z.of_nat (length bs) <= size fifo ->
  fifo_ok (FIFO_Reset fifo)
  /\ contents (FIFO_Reset fifo) = []
  /\ buffer (FIFO_Reset fifo) = buffer fifo
  /\ size (FIFO_Reset fifo) = size fifo
  /\ high_watermark (FIFO_Reset fifo) = high_watermark fifo
  /\ low_watermark (FIFO_Reset fifo) = low_watermark fifo
  /\ overwrite_enabled (FIFO_Reset fifo) = overwrite_enabled fifo
  /\ FIFO_IsEmpty (FIFO_Reset fifo) = true
  /\ FIFO_Pop wide_int (FIFO_Reset fifo) = Some (FIFO_Reset fifo, None)
  /\ FIFO_Peek wide_int (FIFO_Reset fifo) 0 = Some None
  /\ exists fifo1 fifo2,
       push_all wide_int (FIFO_Reset fifo) bs
       = Some (fifo1, replicate (length bs) true)
       /\ pop_n wide_int fifo1 (length bs) = Some (fifo2, map Some bs).
Proof.
  intros Hs Hb Hn.
  assert (Hok : fifo_ok (FIFO_Reset fifo)).
  { split; simpl; [lia | lia |].
    split; simpl; [lia | lia | lia |].
    symmetry. apply Z.mod_0_l. lia. }
  split; [exact Hok|]. do 9 (split; [reflexivity|]).
  destruct (push_all_room wide_int bs (FIFO_Reset fifo) Hok ltac:(simpl; lia))
    as (fifo1 & Hpush & Hok1 & _ & _ & Hc1).
  change (contents (FIFO_Reset fifo)) with (@nil Z) in Hc1. simpl in Hc1.
  destruct (pop_n_contents wide_int bs fifo1 [] Hok1
              ltac:(rewrite app_nil_r; exact Hc1)) as (fifo2 & Hpop & _).
  exists fifo1, fifo2. split; assumption.
Qed.

(** X8. After [FIFO_Free] (or after a failed [FIFO_Init_Dynamic]) the ring
    designates no storage and nothing in the struct says so: the calls that
    return early are the only ones with a defined result.  [FIFO_Push] is
    defined only on a full ring with overwrite disabled, [FIFO_Pop] only on
    an empty one, [FIFO_Peek] only at an index that is out of range. *)
Theorem calls_after_FIFO_Free fifo freed data index :
  freed = FIFO_Free fifo
  \/ freed = fst (FIFO_Init_Dynamic wide_int None fifo (size fifo)) ->
  count freed = count fifo
  /\ size freed = size fifo
  /\ FIFO_Push wide_int freed data
     = (if (count fifo =? size fifo) && negb (overwrite_enabled fifo)
        then Some (freed, false) else None)
  /\ FIFO_PushOverwrite wide_int freed data = None
  /\ FIFO_Pop wide_int freed
     = (if count fifo =? 0 then Some (freed, None) else None)
  /\ FIFO_Peek wide_int freed index
     = (if index >=? count fifo then Some None else None).
Proof.
  assert (Hstore : forall i v, store [] i v = None).
  { intros i v. unfold store.
    destruct (Z.leb_spec 0 i);
      destruct (Z.ltb_spec i (Z.of_nat (@length Z []))); simpl in *;
      solve [reflexivity | lia]. }
  assert (Hload : forall i, load [] i = None).
  { intros i. unfold load. destruct (i <? 0); reflexivity. }
  intros Hfreed.
  assert (Heq : freed = set_buffer fifo []) by (destruct Hfreed; assumption).
  subst freed. clear Hfreed.
  split; [reflexivity|]. split; [reflexivity|].
  unfold FIFO_Push, FIFO_PushOverwrite, FIFO_Pop, FIFO_Peek, insert_at_head.
  simpl. rewrite !Hstore, !Hload. simpl.
  split; [|split; [|split]].
  - destruct (count fifo =? size fifo); simpl; [|reflexivity].
    destruct (overwrite_enabled fifo); simpl; [|reflexivity].
    destruct (c_mod _ _); reflexivity.
  - destruct (count fifo =? size fifo); simpl; [|reflexivity].
    destruct (c_mod _ _); reflexivity.
  - destruct (count fifo =? 0); reflexivity.
  - destruct (index >=? count fifo); [reflexivity|].
    destruct (c_mod _ _); simpl; [rewrite Hload|]; reflexivity.
Qed.

End Access.

(** X6. On a target whose [int] has 16 bits, the sum [tail + index] of
    [FIFO_Peek] wraps at [2^16]: on a ring of capacity above [2^15], an index
    below [count] with [tail + index >= 65536] makes [FIFO_Peek] return
    [true] with the byte of position [index - (65536 - size)] of the queue,
    an older byte than the one asked for. *)
Theorem FIFO_Peek_wraps_on_16_bit_int fifo index :
  fifo_ok fifo -> 0 <= index < count fifo -> 65536 <= tail fifo + index ->
  0 < index - (65536 - size fifo) < index
  /\ exists x,
       FIFO_Peek false fifo index = Some (Some x)
       /\ contents fifo !! Z.to_nat (index - (65536 - size fifo)) = Some x.
Proof.
  intros Hok Hi Hwrap. pose proof Hok as [Hs Hb [Hc Hh Ht Hht]].
  split; [lia|].
  destruct (FIFO_Peek_contents true fifo (index - (65536 - size fifo)) Hok
              ltac:(lia) eq_refl) as (x & Hpeek & Hx).
  exists x. split; [|exact Hx].
  rewrite <- Hpeek. unfold FIFO_Peek.
  destruct (Z.geb_spec index (count fifo)); [lia|].
  destruct (Z.geb_spec (index - (65536 - size fifo)) (count fifo)); [lia|].
  unfold promoted.
  replace ((tail fifo + index) mod 65536) with (tail fifo + index - 65536)
    by (apply Z.mod_unique with (q := 1); lia).
  rewrite !c_mod_nonzero by lia. simpl.
  replace (tail fifo + (index - (65536 - size fifo)))
    with (tail fifo + index - 65536 + 1 * size fifo) by lia.
  rewrite Z.mod_add by lia. reflexivity.
Qed.

Lemma FIFO_Peek_reads_queue_witness :
  FIFO_Peek false (mkFIFO [1; 2; 3; 4] 4 1 2 3 3 1 false) 1
  = Some (contents (mkFIFO [1; 2; 3; 4] 4 1 2 3 3 1 false) !! 1%nat)
  /\ contents (mkFIFO [1; 2; 3; 4] 4 1 2 3 3 1 false) = [3; 4; 1].
Proof.
  split; [|reflexivity].
  apply (FIFO_Peek_reads_queue false (mkFIFO [1; 2; 3; 4] 4 1 2 3 3 1 false) 1);
    [concrete_ring_ok | right; simpl; lia | lia].
Defined.

Lemma FIFO_Reset_empties_witness :
  fifo_ok (FIFO_Reset (mkFIFO [1; 2; 3; 4] 4 9 7 5 3 1 false)).
Proof.
  apply (FIFO_Reset_empties false (mkFIFO [1; 2; 3; 4] 4 9 7 5 3 1 false)
           [5; 6]); simpl; lia.
Defined.

Lemma calls_after_FIFO_Free_witness :
  FIFO_Pop false (FIFO_Free (mkFIFO [1; 2; 3; 4] 4 1 2 3 3 1 false)) = None.
Proof.
  apply (calls_after_FIFO_Free false (mkFIFO [1; 2; 3; 4] 4 1 2 3 3 1 false)
           (FIFO_Free (mkFIFO [1; 2; 3; 4] 4 1 2 3 3 1 false)) 0 0).
  left. reflexivity.
Defined.

Lemma FIFO_Peek_wraps_on_16_bit_int_witness :
  exists x,
    FIFO_Peek false
      (mkFIFO (replicate (Z.to_nat 40000) 0) 40000 39999 39999 40000
              30000 10000 false) 30000
    = Some (Some x)
    /\ contents
         (mkFIFO (replicate (Z.to_nat 40000) 0) 40000 39999 39999 40000
                 30000 10000 false) !! Z.to_nat (30000 - (65536 - 40000))
       = Some x.
Proof.
  apply (FIFO_Peek_wraps_on_16_bit_int
           (mkFIFO (replicate (Z.to_nat 40000) 0) 40000 39999 39999 40000
                   30000 10000 false) 30000).
  - split; [cbv [size]; lia
           | cbv [size buffer]; rewrite length_replicate; lia
           | split; cbv [size head tail count]; first [lia | reflexivity]].
  - cbv [count]. lia.
  - cbv [tail]. lia.
Defined.

(** ** Default watermarks, critical sections, the debug dump *)

Section Housekeeping.

Variable wide_int : bool.

(** X9. Default watermarks.  [FIFO_Init] with a capacity of at least one
    sets [low_watermark = size / 4] and [high_watermark = size - size / 4],
    which never overlap, so that the fresh ring is in the low case and a full
    one in the high case.  [FIFO_Init_Dynamic] sets [1] and [size - 1]: with
    a capacity of one the high watermark is [0] and the empty ring is already
    in the high case, and with a capacity of zero it wraps to [65535]. *)
Theorem default_watermarks storage old sz :
  0 <= sz < 65536 ->
  (1 <= sz ->
   low_watermark (FIFO_Init wide_int storage sz) = sz / 4
   /\ high_watermark (FIFO_Init wide_int storage sz) = sz - sz / 4
   /\ sz / 4 < sz - sz / 4 <= sz
   /\ snd (FIFO_CheckWatermarks_branch (FIFO_Init wide_int storage sz))
      = LowWatermark
   /\ snd (FIFO_CheckWatermarks_branch
             (set_count (FIFO_Init wide_int storage sz) sz))
      = HighWatermark)
  /\ low_watermark (fst (FIFO_Init_Dynamic wide_int (Some storage) old sz)) = 1
  /\ high_watermark (fst (FIFO_Init_Dynamic wide_int (Some storage) old sz))
     = (if sz =? 0 then 65535 else sz - 1)
  /\ (sz = 1 ->
      snd (FIFO_CheckWatermarks_branch
             (fst (FIFO_Init_Dynamic wide_int (Some storage) old sz)))
      = HighWatermark)
  /\ (2 <= sz ->
      snd (FIFO_CheckWatermarks_branch
             (fst (FIFO_Init_Dynamic wide_int (Some storage) old sz)))
      = LowWatermark).
Proof.
  intros Hsz.
  assert (Hq : 0 <= sz / 4) by (apply Z.div_pos; lia).
  assert (Hq' : 4 * (sz / 4) <= sz) by (apply Z.mul_div_le; lia).
  split; [intros H1|].
  - assert (Hlow : to_u16 (sz / 4) = sz / 4) by (apply to_u16_small; lia).
    assert (Hhigh : to_u16 (promoted wide_int (sz - sz / 4)) = sz - sz / 4).
    { rewrite promoted_small by lia. apply to_u16_small. lia. }
    split; [exact Hlow|]. split; [exact Hhigh|]. split; [lia|].
    unfold FIFO_CheckWatermarks_branch. simpl. rewrite Hlow, Hhigh.
    split.
    + destruct (Z.geb_spec 0 (sz - sz / 4)); [lia|].
      destruct (Z.leb_spec 0 (sz / 4)); [reflexivity|lia].
    + destruct (Z.geb_spec sz (sz - sz / 4)); [reflexivity|lia].
  - assert (Hhigh : to_u16 (promoted wide_int (sz - 1))
                    = if sz =? 0 then 65535 else sz - 1).
    { destruct (Z.eqb_spec sz 0) as [->|Hne].
      - destruct wide_int; reflexivity.
      - rewrite promoted_small by lia. apply to_u16_small. lia. }
    split; [reflexivity|]. split; [exact Hhigh|].
    unfold FIFO_CheckWatermarks_branch. simpl. rewrite Hhigh.
    split.
    + intros ->. reflexivity.
    + intros H2. destruct (Z.eqb_spec sz 0); [lia|].
      destruct (Z.geb_spec 0 (sz - 1)); [lia|reflexivity].
Qed.

Variable cli : Z -> Z.

(** X10. [FIFO_PushSafe] and [FIFO_PopSafe] run [FIFO_Push] and [FIFO_Pop]
    with the status register as [cli()] leaves it, hand back what these
    return, and put the status register back to what it was before the call,
    interrupts enabled or not, so that a call made inside a critical section
    does not end it. *)
Theorem safe_calls_restore_SREG SREG fifo data :
  is_u8 SREG -> fifo_ok fifo ->
  (exists fifo' r,
     FIFO_Push wide_int fifo data = Some (fifo', r)
     /\ FIFO_PushSafe wide_int cli SREG fifo data
        = Some (cli SREG, SREG, fifo', r)
     /\ FIFO_PushSafe wide_int cli (cli SREG) fifo data
        = Some (cli (cli SREG), to_u8 (cli SREG), fifo', r))
  /\ (exists fifo' r,
        FIFO_Pop wide_int fifo = Some (fifo', r)
        /\ FIFO_PopSafe wide_int cli SREG fifo
           = Some (cli SREG, SREG, fifo', r)
        /\ FIFO_PopSafe wide_int cli (cli SREG) fifo
           = Some (cli (cli SREG), to_u8 (cli SREG), fifo', r)).
Proof.
  intros Hsreg Hok. unfold FIFO_PushSafe, FIFO_PopSafe.
  rewrite (to_u8_small SREG Hsreg). split.
  - destruct (FIFO_Push_ok wide_int fifo data Hok) as (fifo' & r & -> & _).
    exists fifo', r. repeat split.
  - destruct (FIFO_Pop_ok wide_int fifo Hok) as (fifo' & r & -> & _).
    exists fifo', r. repeat split.
Qed.

Lemma debug_loop_entries fifo fuel : forall i,
  fifo_ok fifo -> wide_int = true \/ size fifo <= 32768 ->
  0 <= i <= count fifo ->
  (Z.to_nat (count fifo - i) < fuel)%nat ->
  debug_loop wide_int fuel fifo i
  = Some (imap (fun k b => DebugEntry (i + Z.of_nat k) b)
               (drop (Z.to_nat i) (contents fifo))).
Proof.
  induction fuel as [|fuel IH]; intros i Hok Hexact Hi Hfuel; [lia|].
  pose proof Hok as [Hs Hb [Hc Hh Ht Hht]].
  pose proof (length_contents fifo) as Hlen.
  simpl. destruct (Z.ltb_spec i (count fifo)) as [Hlt|Hge].
  - rewrite (FIFO_Peek_lookup wide_int fifo i Hok Hexact) by lia. simpl.
    destruct (lookup_lt_is_Some_2 (contents fifo) (Z.to_nat i)) as [x Hx];
      [lia|].
    rewrite Hx. simpl.
    rewrite (to_u16_small (i + 1)) by lia.
    rewrite (IH (i + 1) Hok Hexact) by lia. simpl.
    rewrite (drop_S _ _ _ Hx). simpl.
    replace (Z.to_nat (i + 1)) with (S (Z.to_nat i)) by lia.
    rewrite Z.add_0_r. do 2 f_equal.
    apply imap_ext. intros k b _. simpl. f_equal. lia.
  - rewrite drop_ge by lia. reflexivity.
Qed.

(** X11. [FIFO_DebugPrint] prints the title, then size, count, head and
    tail, then one line per stored byte: [count] lines, numbered from 0, the
    line [k] showing the byte at position [k] of the queue, that is the bytes
    in the order in which [FIFO_Pop] would deliver them (with [int] wider
    than 16 bits or a capacity of at most [2^15]). *)
Theorem FIFO_DebugPrint_lists_queue fifo :
  fifo_ok fifo -> wide_int = true \/ size fifo <= 32768 ->
  FIFO_DebugPrint wide_int fifo
  = Some (DebugTitle
            :: DebugState (size fifo) (count fifo) (head fifo) (tail fifo)
            :: imap (fun k b => DebugEntry (Z.of_nat k) b) (contents fifo)).
Proof.
  intros Hok Hexact. pose proof Hok as [Hs Hb [Hc Hh Ht Hht]].
  unfold FIFO_DebugPrint.
  rewrite (debug_loop_entries fifo (Z.to_nat 65536) 0 Hok Hexact) by lia.
  reflexivity.
Qed.

End Housekeeping.

Lemma default_watermarks_witness :
  low_watermark (FIFO_Init false (replicate 8 0) 8) = 8 / 4
  /\ high_watermark (FIFO_Init false (replicate 8 0) 8) = 8 - 8 / 4
  /\ 8 / 4 < 8 - 8 / 4 <= 8
  /\ snd (FIFO_CheckWatermarks_branch (FIFO_Init false (replicate 8 0) 8))
     = LowWatermark
  /\ snd (FIFO_CheckWatermarks_branch
            (set_count (FIFO_Init false (replicate 8 0) 8) 8))
     = HighWatermark.
Proof.
  apply (proj1 (default_watermarks false (replicate 8 0)
                  (FIFO_Init false [] 0) 8 ltac:(lia))).
  lia.
Defined.

Lemma safe_calls_restore_SREG_witness :
  exists fifo' r,
    FIFO_Push false (FIFO_Init false (replicate 4 0) 4) 7 = Some (fifo', r)
    /\ FIFO_PushSafe false (fun s => Z.land s 0x7F) 0x80
         (FIFO_Init false (replicate 4 0) 4) 7
       = Some (Z.land 0x80 0x7F, 0x80, fifo', r)
    /\ FIFO_PushSafe false (fun s => Z.land s 0x7F) (Z.land 0x80 0x7F)
         (FIFO_Init false (replicate 4 0) 4) 7
       = Some (Z.land (Z.land 0x80 0x7F) 0x7F, to_u8 (Z.land 0x80 0x7F),
               fifo', r).
Proof.
  apply (proj1 (safe_calls_restore_SREG false (fun s => Z.land s 0x7F) 0x80
                  (FIFO_Init false (replicate 4 0) 4) 7
                  ltac:(unfold is_u8; lia)
                  ltac:(apply FIFO_Init_ok; simpl; lia))).
Defined.

Lemma FIFO_DebugPrint_lists_queue_witness :
  FIFO_DebugPrint false (mkFIFO [1; 2; 3; 4] 4 1 2 3 3 1 false)
  = Some [DebugTitle; DebugState 4 3 1 2;
          DebugEntry 0 3; DebugEntry 1 4; DebugEntry 2 1].
Proof.
  apply (FIFO_DebugPrint_lists_queue false
           (mkFIFO [1; 2; 3; 4] 4 1 2 3 3 1 false));
    [concrete_ring_ok | right; simpl; lia].
Defined.

(** ** Adding a message *)


Section Adding.

Variable wide_int : bool.



Local Arguments add_loop : simpl never.

(** X12. On a ring whose capacity is [BUFFER_SIZE], [Add_UART_Message] is
    all or nothing: a length below 3 or above the free room [size - count]
    is refused with the ring untouched, and any other message is appended
    whole, in order, behind what the ring holds. *)
Theorem Add_UART_Message_all_or_nothing fifo message len :
  fifo_ok fifo -> size fifo = BUFFER_SIZE ->
  0 <= len < 256 ->
  len <= Z.of_nat (List.length message) ->
  (len < 3 \/ size fifo - count fifo < len ->
   Add_UART_Message wide_int fifo message len = Some (fifo, false))
  /\ (3 <= len <= size fifo - count fifo ->
      exists fifo',
        Add_UART_Message wide_int fifo message len = Some (fifo', true)
        /\ fifo_ok fifo'
        /\ contents fifo' = contents fifo ++ take (Z.to_nat len) message).
Proof.
  intros Hok Hsize Hlen Hmsg. pose proof Hok as [Hs Hb [Hc Hh Ht Hht]].
  split.
  - intros Hbad. unfold Add_UART_Message. rewrite <- Hsize.
    rewrite promoted_small by lia.
    destruct (Z.ltb_spec len 3); [reflexivity|].
    destruct (Z.ltb_spec (size fifo - count fifo) len); [reflexivity|lia].
  - intros Hfits.
    destruct (Add_UART_Message_room wide_int fifo message len Hok)
      as (fifo' & Hadd & Hok' & _ & Hc'); [lia..|].
    exists fifo'. split; [exact Hadd|]. split; assumption.
Qed.



End Adding.

(** X15. Once a ring holds more than [BUFFER_SIZE] bytes the outcome of
    [Add_UART_Message] depends on the width of [int]: with a wider [int]
    [BUFFER_SIZE - count] is negative and every message is refused, however
    much room the ring has; with a 16-bit [int] the difference wraps to a
    large unsigned value, the test passes, and a message that fits the free
    room is appended. *)
Theorem Add_UART_Message_above_BUFFER_SIZE fifo message len :
  fifo_ok fifo -> BUFFER_SIZE < count fifo ->
  3 <= len < 256 ->
  len <= Z.of_nat (List.length message) ->
  len <= size fifo - count fifo ->
  Add_UART_Message true fifo message len = Some (fifo, false)
  /\ exists fifo',
       Add_UART_Message false fifo message len = Some (fifo', true)
       /\ contents fifo' = contents fifo ++ take (Z.to_nat len) message.
Proof.
  intros Hok Hcount Hlen Hmsg Hroom.
  pose proof Hok as [Hs Hb [Hc Hh Ht Hht]].
  unfold Add_UART_Message, BUFFER_SIZE in *. split.
  - unfold promoted.
    destruct (Z.ltb_spec len 3); [reflexivity|]. simpl.
    destruct (Z.ltb_spec (128 - count fifo) len); [reflexivity|lia].
  - unfold promoted.
    replace ((128 - count fifo) mod 65536) with (128 - count fifo + 65536)
      by (apply Z.mod_unique with (q := -1); lia).
    destruct (Z.ltb_spec len 3); [lia|]. simpl.
    destruct (Z.ltb_spec (128 - count fifo + 65536) len); [lia|].
    destruct (add_loop_room false 256 fifo message len 0 Hok)
      as (fifo' & Hrun & _ & _ & Hc'); [lia..|].
    exists fifo'. split; [exact Hrun|]. rewrite Hc'. reflexivity.
Qed.

Lemma Add_UART_Message_all_or_nothing_witness :
  Add_UART_Message false
    (mkFIFO (replicate 128 0) 128 126 0 126 96 32 false) [0xAA; 3; 0] 3
  = Some (mkFIFO (replicate 128 0) 128 126 0 126 96 32 false, false).
Proof.
  apply (proj1 (Add_UART_Message_all_or_nothing false
                  (mkFIFO (replicate 128 0) 128 126 0 126 96 32 false)
                  [0xAA; 3; 0] 3
                  ltac:(concrete_ring_ok) eq_refl ltac:(lia)
                  ltac:(simpl; lia))).
  right. simpl. lia.
Defined.



Lemma Add_UART_Message_above_BUFFER_SIZE_witness :
  Add_UART_Message true
    (mkFIFO (replicate 200 0) 200 130 0 130 150 50 false) [0xAA; 3; 0] 3
  = Some (mkFIFO (replicate 200 0) 200 130 0 130 150 50 false, false)
  /\ exists fifo',
       Add_UART_Message false
         (mkFIFO (replicate 200 0) 200 130 0 130 150 50 false) [0xAA; 3; 0] 3
       = Some (fifo', true)
       /\ contents fifo'
          = contents (mkFIFO (replicate 200 0) 200 130 0 130 150 50 false)
            ++ [0xAA; 3; 0].
Proof.
  apply (Add_UART_Message_above_BUFFER_SIZE
           (mkFIFO (replicate 200 0) 200 130 0 130 150 50 false)
           [0xAA; 3; 0] 3);
    [concrete_ring_ok | unfold BUFFER_SIZE; simpl; lia | lia
    | simpl; lia | simpl; lia].
Defined.

(** ** Getting a message *)

Lemma store_out_of_range (a : list Z) i v :
  Z.of_nat (length a) <= i -> store a i v = None.
Proof.
  intros H. unfold store.
  destruct (Z.leb_spec 0 i); destruct (Z.ltb_spec i (Z.of_nat (length a)));
    simpl; solve [reflexivity | lia].
Qed.

Section Getting.

Variable wide_int : bool.

Lemma Get_UART_Message_empty fifo message length :
  count fifo = 0 ->
  Get_UART_Message wide_int fifo message length
  = Some (fifo, message, length, false).
Proof.
  intros H. unfold Get_UART_Message, FIFO_IsEmpty. rewrite H. reflexivity.
Qed.

Lemma Get_UART_Message_bad_start fifo message length x xs :
  fifo_ok fifo -> contents fifo = x :: xs -> x <> MESSAGE_START_BYTE ->
  Get_UART_Message wide_int fifo message length
  = Some (popped fifo, message, length, false)
  /\ fifo_ok (popped fifo) /\ contents (popped fifo) = xs.
Proof.
  intros Hok Hc Hx.
  destruct (FIFO_Pop_contents wide_int fifo x xs Hok Hc) as (Hpop & Hok' & Hc').
  split; [|split; assumption].
  unfold Get_UART_Message, FIFO_IsEmpty.
  pose proof (contents_cons_count _ _ _ Hc).
  destruct (Z.eqb_spec (count fifo) 0); [lia|].
  rewrite Hpop. simpl.
  destruct (Z.eqb_spec x MESSAGE_START_BYTE); [contradiction|reflexivity].
Qed.

Lemma Get_UART_Message_lone_start fifo message length :
  fifo_ok fifo -> contents fifo = [MESSAGE_START_BYTE] ->
  Get_UART_Message wide_int fifo message length
  = Some (popped fifo, message, length, false)
  /\ fifo_ok (popped fifo) /\ contents (popped fifo) = [].
Proof.
  intros Hok Hc.
  destruct (FIFO_Pop_contents wide_int fifo _ _ Hok Hc) as (Hpop & Hok' & Hc').
  split; [|split; assumption].
  unfold Get_UART_Message, FIFO_IsEmpty.
  pose proof (contents_cons_count _ _ _ Hc).
  destruct (Z.eqb_spec (count fifo) 0); [lia|].
  rewrite Hpop. simpl.
  rewrite FIFO_Pop_empty by (apply (contents_nil _ Hok'); exact Hc').
  reflexivity.
Qed.

Lemma Get_UART_Message_bad_length fifo message length L rest :
  fifo_ok fifo -> contents fifo = MESSAGE_START_BYTE :: L :: rest -> L < 3 ->
  Get_UART_Message wide_int fifo message length
  = Some (popped (popped fifo), message, length, false)
  /\ fifo_ok (popped (popped fifo)) /\ contents (popped (popped fifo)) = rest.
Proof.
  intros Hok Hc HL.
  destruct (FIFO_Pop_contents wide_int fifo _ _ Hok Hc) as (Hpop & Hok1 & Hc1).
  destruct (FIFO_Pop_contents wide_int (popped fifo) _ _ Hok1 Hc1)
    as (Hpop2 & Hok2 & Hc2).
  split; [|split; assumption].
  unfold Get_UART_Message, FIFO_IsEmpty.
  pose proof (contents_cons_count _ _ _ Hc).
  destruct (Z.eqb_spec (count fifo) 0); [lia|].
  rewrite Hpop. simpl. rewrite Hpop2. simpl.
  destruct (Z.ltb_spec L 3); [reflexivity|lia].
Qed.

(** X16. A start byte followed by a length byte below 3 costs two bytes, and
    a start byte that is the last byte in the ring costs that byte:
    [Get_UART_Message] returns [false] in both cases, without writing to the
    caller's array or to [*length], and the bytes it popped are gone. *)
Theorem Get_UART_Message_short_header fifo message length :
  fifo_ok fifo ->
  (forall L rest,
     contents fifo = MESSAGE_START_BYTE :: L :: rest -> L < 3 ->
     exists fifo',
       Get_UART_Message wide_int fifo message length
       = Some (fifo', message, length, false)
       /\ contents fifo' = rest)
  /\ (contents fifo = [MESSAGE_START_BYTE] ->
      exists fifo',
        Get_UART_Message wide_int fifo message length
        = Some (fifo', message, length, false)
        /\ contents fifo' = []).
Proof.
  intros Hok. split.
  - intros L rest Hc HL.
    destruct (Get_UART_Message_bad_length fifo message length L rest Hok Hc HL)
      as (Hget & _ & Hc').
    eexists. split; [exact Hget|exact Hc'].
  - intros Hc.
    destruct (Get_UART_Message_lone_start fifo message length Hok Hc)
      as (Hget & _ & Hc').
    eexists. split; [exact Hget|exact Hc'].
Qed.

End Getting.

Section Frames.

Variable wide_int : bool.

(** A frame at the front of the ring is delivered and taken out. *)
Lemma Get_UART_Message_frame fifo message length frame rest :
  fifo_ok fifo -> valid_frame frame -> contents fifo = frame ++ rest ->
  Z.of_nat (List.length frame) <= Z.of_nat (List.length message) ->
  exists fifo' message',
    Get_UART_Message wide_int fifo message length
    = Some (fifo', message', Z.of_nat (List.length frame), true)
    /\ take (List.length frame) message' = frame
    /\ List.length message' = List.length message
    /\ fifo_ok fifo'
    /\ contents fifo' = rest.
Proof.
  intros Hok (L & payload & -> & HL & Hpl & Hu8 & Hxor) Hc Hroom.
  simpl List.length in *.
  destruct (Get_UART_Message_framed wide_int fifo message length L
              (payload ++ rest) payload Hok Hc HL)
    as (fifo' & Hget & Hok' & Hc');
    [symmetry; apply take_app_length'; lia | lia | assumption |].
  rewrite Hxor, length_app in Hget.
  destruct (Z.leb_spec (L - 2)
              (Z.of_nat (List.length payload + List.length rest))); [|lia].
  simpl in Hget.
  replace (Z.of_nat (S (S (List.length payload)))) with L by lia.
  exists fifo'. eexists. split; [exact Hget|].
  split.
  { change (MESSAGE_START_BYTE :: L :: payload ++ ?t)
      with ((MESSAGE_START_BYTE :: L :: payload) ++ t).
    apply take_app_length'. reflexivity. }
  split.
  { simpl. rewrite length_app, length_drop. lia. }
  split; [exact Hok'|].
  rewrite Hc'. apply drop_app_length'. lia.
Qed.

(** X17. [Get_UART_Message] returns [true] only for a frame: on a ring in
    working order holding bytes, with an array of at least 255 bytes, the
    call always has a defined result, and when that result is [true] the
    ring started with a valid frame (start byte, own length, zero XOR), that
    frame is what the array and [*length] hold, and the ring has lost exactly
    the bytes of the frame. *)
Theorem Get_UART_Message_true_only_on_frame fifo message length :
  fifo_ok fifo -> Forall is_u8 (contents fifo) ->
  255 <= Z.of_nat (List.length message) ->
  exists fifo' message' length' result,
    Get_UART_Message wide_int fifo message length
    = Some (fifo', message', length', result)
    /\ fifo_ok fifo'
    /\ (result = true ->
        exists frame,
          valid_frame frame
          /\ contents fifo = frame ++ contents fifo'
          /\ length' = Z.of_nat (List.length frame)
          /\ take (List.length frame) message' = frame).
Proof.
  intros Hok Hu8 Hroom.
  destruct (contents fifo) as [|x [|L rest]] eqn:Hc.
  - rewrite Get_UART_Message_empty by (apply (contents_nil fifo Hok); exact Hc).
    do 4 eexists. split; [reflexivity|]. split; [exact Hok|discriminate].
  - destruct (Z.eq_dec x MESSAGE_START_BYTE) as [->|Hx].
    + destruct (Get_UART_Message_lone_start wide_int fifo message length Hok Hc)
        as (Hget & Hok' & _).
      do 4 eexists. split; [exact Hget|]. split; [exact Hok'|discriminate].
    + destruct (Get_UART_Message_bad_start wide_int fifo message length x []
                  Hok Hc Hx) as (Hget & Hok' & _).
      do 4 eexists. split; [exact Hget|]. split; [exact Hok'|discriminate].
  - destruct (Z.eq_dec x MESSAGE_START_BYTE) as [->|Hx].
    2:{ destruct (Get_UART_Message_bad_start wide_int fifo message length x
                    (L :: rest) Hok Hc Hx) as (Hget & Hok' & _).
        do 4 eexists. split; [exact Hget|]. split; [exact Hok'|discriminate]. }
    destruct (Z.lt_ge_cases L 3) as [Hshort|Hlong].
    { destruct (Get_UART_Message_bad_length wide_int fifo message length L rest
                  Hok Hc Hshort) as (Hget & Hok' & _).
      do 4 eexists. split; [exact Hget|]. split; [exact Hok'|discriminate]. }
    apply Forall_cons in Hu8 as [_ Hu8]. apply Forall_cons in Hu8 as [HL Hu8].
    unfold is_u8 in HL.
    set (bytes := take (Z.to_nat (L - 2)) rest).
    assert (Hlb : (List.length bytes <= Z.to_nat (L - 2))%nat)
      by (unfold bytes; rewrite length_take; lia).
    destruct (Get_UART_Message_framed wide_int fifo message length L rest bytes
                Hok Hc ltac:(lia) eq_refl ltac:(lia)
                ltac:(apply Forall_take; exact Hu8))
      as (fifo' & Hget & Hok' & Hc').
    do 4 eexists. split; [exact Hget|]. split; [exact Hok'|].
    intros Htrue. apply andb_true_iff in Htrue as [Hfull Hxor].
    apply Z.leb_le in Hfull. apply Z.eqb_eq in Hxor.
    assert (Hlen : List.length bytes = Z.to_nat (L - 2))
      by (unfold bytes; rewrite length_take; lia).
    exists (MESSAGE_START_BYTE :: L :: bytes). split; [|split; [|split]].
    + exists L, bytes. split; [reflexivity|]. split; [lia|].
      split; [lia|]. split; [apply Forall_take; exact Hu8|exact Hxor].
    + rewrite Hc'. simpl. do 2 f_equal. unfold bytes.
      symmetry. apply take_drop.
    + simpl List.length. lia.
    + change (MESSAGE_START_BYTE :: L :: bytes ++ ?t)
        with ((MESSAGE_START_BYTE :: L :: bytes) ++ t).
      apply take_app_length'. simpl. lia.
Qed.

(** The payload loop walks off the end of an array that is shorter than the
    announced length, as long as the ring has bytes to pop. *)
Lemma payload_loop_overflow fuel : forall fifo message L checksum i,
  fifo_ok fifo ->
  0 <= i <= Z.of_nat (List.length message) ->
  Z.of_nat (List.length message) < L < 256 ->
  (Z.to_nat (L - i) < fuel)%nat ->
  Z.of_nat (List.length message) - i < Z.of_nat (List.length (contents fifo)) ->
  payload_loop wide_int fuel fifo message L checksum i = None.
Proof.
  induction fuel as [|fuel IH];
    intros fifo message L checksum i Hok Hi HL Hfuel Hbytes; [lia|].
  simpl. destruct (Z.ltb_spec i L) as [Hlt|Hge]; [|lia].
  destruct (contents fifo) as [|x xs] eqn:Hc; [simpl in Hbytes; lia|].
  destruct (FIFO_Pop_contents wide_int fifo x xs Hok Hc) as (Hpop & Hok' & Hc').
  rewrite Hpop. simpl.
  destruct (Z.eq_dec i (Z.of_nat (List.length message))) as [Hend|Hin].
  - rewrite store_out_of_range by lia. reflexivity.
  - rewrite store_in_range by lia. simpl.
    rewrite (to_u8_small (i + 1)) by lia.
    apply IH; [exact Hok' | rewrite length_insert; lia
              | rewrite length_insert; lia | lia |].
    rewrite length_insert, Hc'. simpl List.length in Hbytes. lia.
Qed.

Local Arguments payload_loop : simpl never.

(** X18. Nothing in [Get_UART_Message] bounds the writes to the caller's
    array by its size: when the ring starts with the start byte and a length
    byte [L >= 3], the array has fewer than [L] bytes and the ring holds
    enough payload bytes to reach its end, the call writes outside the array
    (no defined result). *)
Theorem Get_UART_Message_overruns_short_array fifo message length L rest :
  fifo_ok fifo ->
  contents fifo = MESSAGE_START_BYTE :: L :: rest ->
  3 <= L < 256 ->
  Z.of_nat (List.length message) < L ->
  Z.of_nat (List.length message) - 2 < Z.of_nat (List.length rest) ->
  Get_UART_Message wide_int fifo message length = None.
Proof.
  intros Hok Hc HL Hshort Hbytes.
  unfold Get_UART_Message, FIFO_IsEmpty.
  pose proof (contents_cons_count _ _ _ Hc) as Hpos.
  destruct (Z.eqb_spec (count fifo) 0); [lia|].
  destruct (FIFO_Pop_contents wide_int fifo _ _ Hok Hc) as (Hpop1 & Hok1 & Hc1).
  rewrite Hpop1. simpl.
  destruct (FIFO_Pop_contents wide_int (popped fifo) _ _ Hok1 Hc1)
    as (Hpop2 & Hok2 & Hc2).
  rewrite Hpop2. simpl.
  destruct (Z.ltb_spec L 3); [lia|].
  destruct message as [|a [|b old]].
  - reflexivity.
  - reflexivity.
  - rewrite store_in_range by (simpl List.length; lia). simpl.
    rewrite store_in_range by (simpl List.length; lia). simpl.
    rewrite payload_loop_overflow; [reflexivity | exact Hok2 | ..];
      simpl List.length in *; rewrite ?Hc2; lia.
Qed.

(** [n] calls on a ring that starts with [n] frames. *)
Lemma get_messages_frames frames : forall fifo message length rest,
  fifo_ok fifo -> Forall valid_frame frames ->
  contents fifo = concat frames ++ rest ->
  255 <= Z.of_nat (List.length message) ->
  exists fifo',
    get_messages wide_int fifo message length (List.length frames)
    = Some (fifo', map Some frames)
    /\ fifo_ok fifo'
    /\ contents fifo' = rest.
Proof.
  induction frames as [|frame frames IH];
    intros fifo message length rest Hok Hvalid Hc Hroom.
  - exists fifo. split; [reflexivity|]. split; assumption.
  - apply Forall_cons in Hvalid as [Hframe Hvalid].
    simpl concat in Hc. rewrite <- app_assoc in Hc.
    assert (Hlen : Z.of_nat (List.length frame) <= 255).
    { destruct Hframe as (L & payload & -> & HL & Hpl & _).
      simpl List.length. lia. }
    destruct (Get_UART_Message_frame fifo message length frame
                (concat frames ++ rest) Hok Hframe Hc ltac:(lia))
      as (fifo1 & message1 & Hget & Htake & Hlen1 & Hok1 & Hc1).
    destruct (IH fifo1 message1 (Z.of_nat (List.length frame)) rest
                Hok1 Hvalid Hc1 ltac:(lia))
      as (fifo' & Hrun & Hok' & Hc').
    exists fifo'. split; [|split; assumption].
    simpl. rewrite Hget. simpl. rewrite Hrun. simpl.
    rewrite Nat2Z.id, Htake. reflexivity.
Qed.

(** X19. Frames come out whole and in order: when the ring starts with the
    bytes of [n] valid frames one after the other, [n] calls of
    [Get_UART_Message] (array of at least 255 bytes) all return [true] and
    deliver the frames in the order in which they were stored, leaving what
    followed them in the ring. *)
Theorem frames_delivered_in_order frames fifo message length rest :
  fifo_ok fifo -> Forall valid_frame frames ->
  contents fifo = concat frames ++ rest ->
  255 <= Z.of_nat (List.length message) ->
  exists fifo',
    get_messages wide_int fifo message length (List.length frames)
    = Some (fifo', map Some frames)
    /\ contents fifo' = rest.
Proof.
  intros Hok Hvalid Hc Hroom.
  destruct (get_messages_frames frames fifo message length rest
              Hok Hvalid Hc Hroom) as (fifo' & Hrun & _ & Hc').
  exists fifo'. split; assumption.
Qed.

(** X20. Bytes that are not the start marker in front of a frame cost one
    failed call each: with [k] such bytes ahead of a valid frame, the first
    [k] calls of [Get_UART_Message] return [false], each dropping one byte,
    and call [k + 1] delivers the frame. *)
Theorem resynchronises_after_noise noise : forall fifo message length frame rest,
  fifo_ok fifo -> Forall (fun b => b <> MESSAGE_START_BYTE) noise ->
  valid_frame frame ->
  contents fifo = noise ++ frame ++ rest ->
  255 <= Z.of_nat (List.length message) ->
  exists fifo',
    get_messages wide_int fifo message length (List.length noise + 1)
    = Some (fifo', replicate (List.length noise) None ++ [Some frame])
    /\ contents fifo' = rest.
Proof.
  induction noise as [|b noise IH];
    intros fifo message length frame rest Hok Hnoise Hframe Hc Hroom.
  - destruct (get_messages_frames [frame] fifo message length rest Hok)
      as (fifo' & Hrun & _ & Hc');
      [apply Forall_cons_2; [exact Hframe|apply Forall_nil_2]
      | simpl; rewrite app_nil_r; exact Hc | exact Hroom |].
    exists fifo'. split; assumption.
  - apply Forall_cons in Hnoise as [Hb Hnoise].
    destruct (Get_UART_Message_bad_start wide_int fifo message length b
                (noise ++ frame ++ rest) Hok Hc Hb) as (Hget & Hok1 & Hc1).
    destruct (IH (popped fifo) message length frame rest
                Hok1 Hnoise Hframe Hc1 Hroom) as (fifo' & Hrun & Hc').
    exists fifo'. split; [|exact Hc'].
    simpl. rewrite Hget. simpl. rewrite Hrun. reflexivity.
Qed.

End Frames.

(** ** What getting a message leaves alone *)

Lemma only_popped_refl fifo : only_popped fifo fifo.
Proof. repeat split. Qed.

Lemma only_popped_trans f1 f2 f3 :
  only_popped f1 f2 -> only_popped f2 f3 -> only_popped f1 f3.
Proof.
  unfold only_popped. intros (A1 & A2 & A3 & A4 & A5 & A6)
    (B1 & B2 & B3 & B4 & B5 & B6).
  repeat split; congruence.
Qed.

Lemma store_length (a a' : list Z) i v :
  store a i v = Some a' -> length a' = length a.
Proof.
  unfold store. destruct (_ && _); [|discriminate].
  intros [= <-]. apply length_insert.
Qed.

Section Footprint.

Variable wide_int : bool.

Lemma FIFO_Pop_only_pops fifo fifo' r :
  FIFO_Pop wide_int fifo = Some (fifo', r) -> only_popped fifo fifo'.
Proof.
  unfold FIFO_Pop. destruct (count fifo =? 0).
  - intros [= <- _]. apply only_popped_refl.
  - destruct (load _ _); [|discriminate]. simpl.
    destruct (c_mod _ _); [|discriminate]. simpl.
    intros [= <- _]. repeat split.
Qed.

Lemma payload_loop_only_pops fuel :
  forall fifo message L checksum i fifo' message' r,
  payload_loop wide_int fuel fifo message L checksum i
  = Some (fifo', message', r) ->
  only_popped fifo fifo' /\ length message' = length message.
Proof.
  induction fuel as [|fuel IH];
    intros fifo message L checksum i fifo' message' r; [discriminate|].
  simpl. destruct (i <? L).
  - destruct (FIFO_Pop wide_int fifo) as [[fifo1 [data|]]|] eqn:Hpop;
      simpl; [| |discriminate].
    + destruct (store message i data) as [message1|] eqn:Hst;
        [|discriminate]. simpl. intros Hrun.
      apply IH in Hrun as [Hp Hl].
      split; [|rewrite Hl; eapply store_length; exact Hst].
      eapply only_popped_trans; [eapply FIFO_Pop_only_pops; exact Hpop|exact Hp].
    + intros [= <- <- _].
      split; [eapply FIFO_Pop_only_pops; exact Hpop|reflexivity].
  - intros [= <- <- _]. split; [apply only_popped_refl|reflexivity].
Qed.

Local Arguments payload_loop : simpl never.

(** X21. Whatever the ring and the array, a call of [Get_UART_Message] that
    has a defined result has only moved [tail] and [count]: the storage of
    the ring, its capacity, [head], the watermarks and the overwrite flag are
    as before, and the caller's array has kept its size. *)
Theorem Get_UART_Message_only_pops fifo message length
    fifo' message' length' result :
  Get_UART_Message wide_int fifo message length
  = Some (fifo', message', length', result) ->
  only_popped fifo fifo' /\ List.length message' = List.length message.
Proof.
  unfold Get_UART_Message.
  destruct (FIFO_IsEmpty fifo).
  { intros [= <- <- _ _]. split; [apply only_popped_refl|reflexivity]. }
  destruct (FIFO_Pop wide_int fifo) as [[fifo1 [start|]]|] eqn:Hpop1;
    simpl; [| |discriminate].
  2:{ intros [= <- <- _ _].
      split; [eapply FIFO_Pop_only_pops; exact Hpop1|reflexivity]. }
  apply FIFO_Pop_only_pops in Hpop1.
  destruct (negb (start =? MESSAGE_START_BYTE)).
  { intros [= <- <- _ _]. split; [exact Hpop1|reflexivity]. }
  destruct (FIFO_Pop wide_int fifo1) as [[fifo2 [L|]]|] eqn:Hpop2;
    simpl; [| |discriminate].
  2:{ intros [= <- <- _ _]. split; [|reflexivity].
      eapply only_popped_trans; [exact Hpop1|].
      eapply FIFO_Pop_only_pops; exact Hpop2. }
  apply FIFO_Pop_only_pops in Hpop2.
  pose proof (only_popped_trans _ _ _ Hpop1 Hpop2) as H12.
  destruct (L <? 3).
  { intros [= <- <- _ _]. split; [exact H12|reflexivity]. }
  destruct (store message 0 MESSAGE_START_BYTE) as [m0|] eqn:Hs0;
    [|discriminate]. simpl.
  destruct (store m0 1 L) as [m1|] eqn:Hs1; [|discriminate]. simpl.
  apply store_length in Hs0. apply store_length in Hs1.
  destruct (payload_loop wide_int 256 fifo2 m1 L 0 2)
    as [[[fifo3 m2] ck]|] eqn:Hloop; [|discriminate]. simpl.
  apply payload_loop_only_pops in Hloop as [Hp3 Hl3].
  assert (Hall : only_popped fifo fifo3 /\ List.length m2 = List.length message).
  { split; [eapply only_popped_trans; eassumption|congruence]. }
  destruct ck as [ck|]; [destruct (negb (ck =? 0))|];
    intros [= <- <- _ _]; exact Hall.
Qed.

(** X22. Round trip.  On an empty ring in working order, a well-formed
    message of at most [BUFFER_SIZE] bytes that fits the capacity is accepted
    by [Add_UART_Message], and the [Get_UART_Message] that follows returns
    [true] with [*length] equal to its length and the message in the array,
    leaving the ring empty. *)
Theorem round_trip_up_to_BUFFER_SIZE fifo m len out outLen :
  fifo_ok fifo -> count fifo = 0 ->
  Z.of_nat (List.length m) = len -> 3 <= len -> len <= BUFFER_SIZE ->
  len <= size fifo ->
  m !! 0%nat = Some MESSAGE_START_BYTE -> m !! 1%nat = Some len ->
  xor_bytes (drop 2 m) = 0 -> Forall is_u8 m ->
  len <= Z.of_nat (List.length out) ->
  exists fifo1 fifo2 out',
    Add_UART_Message wide_int fifo m len = Some (fifo1, true)
    /\ Get_UART_Message wide_int fifo1 out outLen = Some (fifo2, out', len, true)
    /\ take (Z.to_nat len) out' = m
    /\ count fifo2 = 0.
Proof. apply round_trip_within_BUFFER_SIZE. Qed.

End Footprint.

Lemma Get_UART_Message_short_header_witness :
  exists fifo',
    Get_UART_Message false (mkFIFO [0xAA; 2; 7; 0] 4 3 0 3 3 1 false) [0; 0] 9
    = Some (fifo', [0; 0], 9, false)
    /\ contents fifo' = [7].
Proof.
  apply (proj1 (Get_UART_Message_short_header false
                  (mkFIFO [0xAA; 2; 7; 0] 4 3 0 3 3 1 false) [0; 0] 9
                  ltac:(concrete_ring_ok)) 2 [7]);
    [reflexivity | lia].
Defined.

Lemma Get_UART_Message_true_only_on_frame_witness :
  exists fifo' message' length' result,
    Get_UART_Message false
      (mkFIFO [0xAA; 4; 0x10; 0x10; 0; 0; 0; 0] 8 4 0 4 6 2 false)
      (replicate 255 0) 0
    = Some (fifo', message', length', result)
    /\ fifo_ok fifo'
    /\ (result = true ->
        exists frame,
          valid_frame frame
          /\ [0xAA; 4; 0x10; 0x10] = frame ++ contents fifo'
          /\ length' = Z.of_nat (length frame)
          /\ take (length frame) message' = frame).
Proof.
  apply (Get_UART_Message_true_only_on_frame false
           (mkFIFO [0xAA; 4; 0x10; 0x10; 0; 0; 0; 0] 8 4 0 4 6 2 false)
           (replicate 255 0) 0);
    [concrete_ring_ok
    | change (Forall is_u8 [0xAA; 4; 0x10; 0x10]); concrete_bytes
    | rewrite length_replicate; lia].
Defined.

Lemma Get_UART_Message_overruns_short_array_witness :
  Get_UART_Message false
    (mkFIFO [0xAA; 5; 1; 2; 3; 0; 0; 0] 8 5 0 5 6 2 false) [0; 0; 0; 0] 0
  = None.
Proof.
  apply (Get_UART_Message_overruns_short_array false
           (mkFIFO [0xAA; 5; 1; 2; 3; 0; 0; 0] 8 5 0 5 6 2 false)
           [0; 0; 0; 0] 0 5 [1; 2; 3]);
    [concrete_ring_ok | reflexivity | lia | simpl; lia | simpl; lia].
Defined.

Lemma frames_delivered_in_order_witness :
  exists fifo',
    get_messages false
      (mkFIFO [0xAA; 3; 0; 0xAA; 4; 0x10; 0x10; 7] 8 0 0 8 6 2 false)
      (replicate 255 0) 0 2
    = Some (fifo', [Some [0xAA; 3; 0]; Some [0xAA; 4; 0x10; 0x10]])
    /\ contents fifo' = [7].
Proof.
  apply (frames_delivered_in_order false
           [[0xAA; 3; 0]; [0xAA; 4; 0x10; 0x10]]
           (mkFIFO [0xAA; 3; 0; 0xAA; 4; 0x10; 0x10; 7] 8 0 0 8 6 2 false)
           (replicate 255 0) 0 [7]);
    [concrete_ring_ok
    | apply Forall_cons_2; [concrete_frame 3 [0]|];
      apply Forall_cons_2; [concrete_frame 4 [0x10; 0x10]|apply Forall_nil_2]
    | reflexivity | rewrite length_replicate; lia].
Defined.

Lemma resynchronises_after_noise_witness :
  exists fifo',
    get_messages false
      (mkFIFO [1; 2; 0xAA; 4; 0x10; 0x10; 7; 0] 8 7 0 7 6 2 false)
      (replicate 255 0) 0 (2 + 1)
    = Some (fifo', [None; None; Some [0xAA; 4; 0x10; 0x10]])
    /\ contents fifo' = [7].
Proof.
  apply (resynchronises_after_noise false [1; 2]
           (mkFIFO [1; 2; 0xAA; 4; 0x10; 0x10; 7; 0] 8 7 0 7 6 2 false)
           (replicate 255 0) 0 [0xAA; 4; 0x10; 0x10] [7]);
    [concrete_ring_ok
    | repeat (apply Forall_cons_2; [unfold MESSAGE_START_BYTE; lia|]);
      apply Forall_nil_2
    | concrete_frame 4 [0x10; 0x10] | reflexivity
    | rewrite length_replicate; lia].
Defined.

Lemma Get_UART_Message_only_pops_witness :
  only_popped
    (mkFIFO [0xAA; 4; 0x10; 0x14; 0; 0; 0; 0] 8 4 0 4 6 2 false)
    (mkFIFO [0xAA; 4; 0x10; 0x14; 0; 0; 0; 0] 8 4 4 0 6 2 false)
  /\ length [0xAA; 4; 0x10; 0x14; 0; 0] = length [0; 0; 0; 0; 0; 0].
Proof.
  apply (Get_UART_Message_only_pops false
           (mkFIFO [0xAA; 4; 0x10; 0x14; 0; 0; 0; 0] 8 4 0 4 6 2 false)
           [0; 0; 0; 0; 0; 0] 0
           (mkFIFO [0xAA; 4; 0x10; 0x14; 0; 0; 0; 0] 8 4 4 0 6 2 false)
           [0xAA; 4; 0x10; 0x14; 0; 0] 4 false).
  vm_compute. reflexivity.
Defined.

Lemma round_trip_up_to_BUFFER_SIZE_witness :
  exists fifo1 fifo2 out',
    Add_UART_Message false (FIFO_Init false (replicate 8 0) 8)
      [0xAA; 5; 0x21; 0x43; 0x62] 5
    = Some (fifo1, true)
    /\ Get_UART_Message false fifo1 [0; 0; 0; 0; 0; 0] 0
       = Some (fifo2, out', 5, true)
    /\ take (Z.to_nat 5) out' = [0xAA; 5; 0x21; 0x43; 0x62]
    /\ count fifo2 = 0.
Proof.
  apply (round_trip_up_to_BUFFER_SIZE false
           (FIFO_Init false (replicate 8 0) 8)
           [0xAA; 5; 0x21; 0x43; 0x62] 5 [0; 0; 0; 0; 0; 0] 0);
    [apply FIFO_Init_ok; simpl; lia | reflexivity | reflexivity | lia
    | unfold BUFFER_SIZE; lia | simpl; lia | reflexivity | reflexivity
    | reflexivity | concrete_bytes | simpl; lia].
Defined.
